(** * kgo: command-line grammars from mdoc manual pages

    A shallow embedding of [main.go]: the SYNOPSIS extractor
    ([getSynopsisLines]), the recursive macro-to-parameter builder
    ([buildParameter]), the assemblers ([buildSyntax], [buildCommand]) and
    the name resolver ([getDefinedName]), followed by the properties the
    specification states about them.

    Go strings are modelled as [string] (sequences of bytes), slices as
    [list], [int] indices that only count upwards as [nat], and the one
    index that starts at [-1] ([usagePattern]) as [Z].  A Go [error] value
    is [option string] with [None] for [nil].  Everything that can make a
    Go function fail to return a value (an index or slice out of range) is
    an explicit [Panic]; the recursion of [buildParameter], which is not
    structural, runs on fuel and [OutOfFuel] marks its exhaustion. *)

From Stdlib Require Import String Ascii List Bool Arith ZArith Lia.
Import ListNotations.
Open Scope string_scope.
Open Scope nat_scope.

Set Implicit Arguments.
Set Warnings "-register-all".

(** ** Outcomes of a Go call *)

Inductive outcome (A : Type) : Type :=
| Done (a : A)
| Panic (msg : string)
| OutOfFuel.

Arguments Done {A} a.
Arguments Panic {A} msg.
Arguments OutOfFuel {A}.

Definition bind {A B : Type} (m : outcome A) (k : A -> outcome B) : outcome B :=
  match m with
  | Done a => k a
  | Panic msg => Panic msg
  | OutOfFuel => OutOfFuel
  end.

Notation "x <- m ;; k" := (bind m (fun x => k))
  (at level 61, m at next level, right associativity).
Notation "' pat <- m ;; k" := (bind m (fun x => match x with pat => k end))
  (at level 61, pat pattern, m at next level, right associativity).

(** A Go [error]: [nil] is [None]. *)
Definition error : Type := option string.

(** [s[i]]: panics when [i] is out of range. *)
Definition index {A : Type} (s : list A) (i : nat) : outcome A :=
  match nth_error s i with
  | Some a => Done a
  | None => Panic "index out of range"
  end.

(** [s[i:]]: panics when [i] exceeds [len(s)]. *)
Definition sliceFrom {A : Type} (s : list A) (i : nat) : outcome (list A) :=
  if i <=? length s then Done (skipn i s) else Panic "slice bounds out of range".

(** [s[i] = v] for an [int] index: panics when [i] is negative or too large. *)
Fixpoint setNth {A : Type} (s : list A) (i : nat) (v : A) : list A :=
  match s, i with
  | [], _ => []
  | _ :: t, O => v :: t
  | h :: t, S j => h :: setNth t j v
  end.

Definition indexZ {A : Type} (s : list A) (i : Z) : outcome A :=
  if (i <? 0)%Z then Panic "index out of range" else index s (Z.to_nat i).

Definition assignZ {A : Type} (s : list A) (i : Z) (v : A) : outcome (list A) :=
  if (i <? 0)%Z then Panic "index out of range"
  else if Z.to_nat i <? length s then Done (setNth s (Z.to_nat i) v)
  else Panic "index out of range".

(** ** The functions of package [strings] the program calls *)

(** [strings.HasPrefix(s, prefix)] *)
Fixpoint hasPrefix (s prefix : string) {struct prefix} : bool :=
  match prefix with
  | EmptyString => true
  | String c prefix' =>
      match s with
      | EmptyString => false
      | String d s' => Ascii.eqb c d && hasPrefix s' prefix'
      end
  end.

(** [strings.Contains(s, substr)] *)
Fixpoint contains (s substr : string) : bool :=
  hasPrefix s substr ||
  match s with
  | EmptyString => false
  | String _ s' => contains s' substr
  end.

(** [strings.TrimLeft(s, ".")]: every leading dot is removed. *)
Fixpoint trimLeftDots (s : string) : string :=
  match s with
  | String c s' => if Ascii.eqb c "." then trimLeftDots s' else s
  | EmptyString => EmptyString
  end.

(** [strings.Split(s, " ")]: the pieces between single spaces; one more
    piece than there are spaces, so never an empty slice. *)
Fixpoint splitSpace (s : string) : list string :=
  match s with
  | EmptyString => [EmptyString]
  | String c s' =>
      if Ascii.eqb c " " then EmptyString :: splitSpace s'
      else match splitSpace s' with
           | piece :: pieces => String c piece :: pieces
           | [] => [String c EmptyString]
           end
  end.

(** [strings.ToUpper] on the bytes [a]..[z]; the program applies it to the
    two ASCII constants [".Sh"] and ["synopsis"] only. *)
Definition upperAscii (c : ascii) : ascii :=
  let n := nat_of_ascii c in
  if (97 <=? n) && (n <=? 122) then ascii_of_nat (n - 32) else c.

Fixpoint toUpper (s : string) : string :=
  match s with
  | EmptyString => EmptyString
  | String c s' => String (upperAscii c) (toUpper s')
  end.

(** ** Data model *)

(** [type Parameter struct]; the Go name is a reserved word here, hence
    [Param].  The pointer field [parameter] is [None] for [nil]. *)
Inductive Param : Type := mkParam {
  pname        : string;
  optional     : bool;
  nospace      : bool;
  hasargument  : bool;
  argument     : string;
  hasflags     : bool;
  flags        : string;
  hasparameter : bool;
  parameter    : option Param
}.

Record Syntax : Type := mkSyntax { parameters : list Param }.

Record Command : Type := mkCommand { name : string; syntaxes : list Syntax }.

(** [Parameter{}]: the zero value. *)
Definition zeroParam : Param :=
  mkParam "" false false false "" false "" false None.

(** Field assignments [p.f = v]. *)
Definition set_optional (p : Param) (v : bool) : Param :=
  mkParam (pname p) v (nospace p) (hasargument p) (argument p)
          (hasflags p) (flags p) (hasparameter p) (parameter p).
Definition set_hasargument (p : Param) (v : bool) : Param :=
  mkParam (pname p) (optional p) (nospace p) v (argument p)
          (hasflags p) (flags p) (hasparameter p) (parameter p).
Definition set_argument (p : Param) (v : string) : Param :=
  mkParam (pname p) (optional p) (nospace p) (hasargument p) v
          (hasflags p) (flags p) (hasparameter p) (parameter p).
Definition set_hasflags (p : Param) (v : bool) : Param :=
  mkParam (pname p) (optional p) (nospace p) (hasargument p) (argument p)
          v (flags p) (hasparameter p) (parameter p).
Definition set_flags (p : Param) (v : string) : Param :=
  mkParam (pname p) (optional p) (nospace p) (hasargument p) (argument p)
          (hasflags p) v (hasparameter p) (parameter p).
Definition set_hasparameter (p : Param) (v : bool) : Param :=
  mkParam (pname p) (optional p) (nospace p) (hasargument p) (argument p)
          (hasflags p) (flags p) v (parameter p).
Definition set_parameter (p : Param) (v : option Param) : Param :=
  mkParam (pname p) (optional p) (nospace p) (hasargument p) (argument p)
          (hasflags p) (flags p) (hasparameter p) v.

(** ** ParameterTreeBuilder: [buildParameter] *)

Section BuildParameterBody.

(** The function called at the three recursive call sites, and the
    [tokens] argument of the running call. *)
Variable self : list string -> outcome (Param * error).
Variable tokens : list string.

(** The block the three macros share word for word (lines 225-231,
    245-251 and 265-271):
<<
    p.hasparameter = true
    tp, e := buildParameter(tokens[i:])
    if err != nil { err = e } else { p.parameter = &tp }
>> *)
Definition attachNested (i : nat) (p : Param) (err : error)
  : outcome (Param * error) :=
  let p := set_hasparameter p true in
  sub <- sliceFrom tokens i ;;
  '(tp, e) <- self sub ;;
  match err with
  | Some _ => Done (p, e)
  | None => Done (set_parameter p (Some tp), err)
  end.

(** [if token == "Op" { ... }] *)
Definition onOp (i : nat) (token : string) (st : Param * error)
  : outcome (Param * error) :=
  let '(p, err) := st in
  if (token =? "Op")%string then
    if negb (optional p) then Done (set_optional p true, err)
    else if negb (hasparameter p) then attachNested i p err
    else Done (p, err)
  else Done (p, err).

(** [if token == "Ar" && !p.hasargument { ... }] *)
Definition onAr (i : nat) (token : string) (st : Param * error)
  : outcome (Param * error) :=
  let '(p, err) := st in
  if ((token =? "Ar")%string) && negb (hasargument p) then
    if negb (hasargument p) then
      let p := set_hasargument p true in
      if i + 1 <? length tokens then
        t <- index tokens (i + 1) ;; Done (set_argument p t, err)
      else Done (set_argument p "files", err)
    else if negb (hasparameter p) then attachNested i p err
    else Done (p, err)
  else Done (p, err).

(** [if token == "Fl" && !p.hasflags { ... }] *)
Definition onFl (i : nat) (token : string) (st : Param * error)
  : outcome (Param * error) :=
  let '(p, err) := st in
  if ((token =? "Fl")%string) && negb (hasflags p) then
    if negb (hasflags p) then
      let p := set_hasflags p true in
      if i + 1 <? length tokens then
        t <- index tokens (i + 1) ;; Done (set_flags p t, err)
      else Done (set_flags p "-", err)
    else if negb (hasparameter p) then attachNested i p err
    else Done (p, err)
  else Done (p, err).

(** One iteration of [for i, rawtoken := range tokens]. *)
Definition step (i : nat) (rawtoken : string) (st : Param * error)
  : outcome (Param * error) :=
  let token := trimLeftDots rawtoken in
  st <- onOp i token st ;;
  st <- onAr i token st ;;
  onFl i token st.

(** The iterations from index [i] on; [rest] is what is left to range
    over. *)
Fixpoint scan (i : nat) (rest : list string) (st : Param * error)
  : outcome (Param * error) :=
  match rest with
  | [] => Done st
  | rawtoken :: rest' => st' <- step i rawtoken st ;; scan (S i) rest' st'
  end.

End BuildParameterBody.

Fixpoint buildParameter_fuel (fuel : nat) (tokens : list string)
  : outcome (Param * error) :=
  match fuel with
  | O => OutOfFuel
  | S fuel' => scan (buildParameter_fuel fuel') tokens 0 tokens (zeroParam, None)
  end.

(** One unit of fuel per token and one to start with is enough
    ([buildParameter_unfold] below states the recursive equation). *)
Definition buildParameter (tokens : list string) : outcome (Param * error) :=
  buildParameter_fuel (S (length tokens)) tokens.

(** ** SyntaxAssembler and CommandAssembler *)

Definition isValidParameter (p : Param) : bool :=
  optional p || nospace p || hasflags p || hasargument p || hasparameter p.

Definition isValidSyntax (s : Syntax) : bool :=
  0 <? length (parameters s).

(** The [for _, line := range lines] loop of [buildSyntax], with its two
    variables [parameters] and [err]. *)
Fixpoint buildSyntax_loop (lines : list string) (params : list Param)
  (err : error) : outcome (Syntax * error) :=
  match lines with
  | [] => Done (mkSyntax params, err)
  | line :: lines' =>
      '(param, e) <- buildParameter (splitSpace line) ;;
      match e with
      | Some _ => buildSyntax_loop lines' params e
      | None =>
          if isValidParameter param
          then buildSyntax_loop lines' (params ++ [param]) err
          else buildSyntax_loop lines' params err
      end
  end.

Definition buildSyntax (lines : list string) : outcome (Syntax * error) :=
  buildSyntax_loop lines [] None.

(** [errors.New("No syntaxes found")] *)
Definition noSyntaxesFound : error := Some "No syntaxes found".

(** The [for _, lineset := range paramLines] loop of [buildCommand]. *)
Fixpoint buildCommand_loop (paramLines : list (list string))
  (syntax : list Syntax) (err : error) : outcome (list Syntax * error) :=
  match paramLines with
  | [] => Done (syntax, err)
  | lineset :: paramLines' =>
      '(syn, e) <- buildSyntax lineset ;;
      match e with
      | Some _ => buildCommand_loop paramLines' syntax e
      | None =>
          if isValidSyntax syn
          then buildCommand_loop paramLines' (syntax ++ [syn]) err
          else buildCommand_loop paramLines' syntax err
      end
  end.

Definition buildCommand (name : string) (paramLines : list (list string))
  : outcome (Command * error) :=
  '(syntax, err) <- buildCommand_loop paramLines [] None ;;
  let err := if length syntax =? 0 then noSyntaxesFound else err in
  Done (mkCommand name syntax, err).

(** ** LineClassifier *)

(** The double quote character, byte 34. *)
Definition dquote : string := String (ascii_of_nat 34) EmptyString.

Definition quoteString (s : string) : string := dquote ++ s ++ dquote.

Definition pass (s : string) : string := s.

Definition modfunctions : list (string -> string) :=
  [quoteString; pass; toUpper].

(** The two nested [range modfunctions] loops, [ret] threaded through. *)
Definition isSynopsisLine (line : string) : bool :=
  fold_left
    (fun ret shfunc =>
       fold_left
         (fun ret synfunc =>
            ret || hasPrefix line (shfunc ".Sh" ++ " " ++ synfunc "synopsis"))
         modfunctions ret)
    modfunctions false.

Definition knownMacros : list string := [".Nm"; ".Op"; ".Ar"; ".Fl"].

Definition compliantLine (line : string) : bool :=
  existsb (fun macro => contains line macro) knownMacros.

(** What is left of [s] after [prefix], when [s] starts with it. *)
Fixpoint stripPrefix (s prefix : string) {struct prefix} : option string :=
  match prefix with
  | EmptyString => Some s
  | String c prefix' =>
      match s with
      | EmptyString => None
      | String d s' => if Ascii.eqb c d then stripPrefix s' prefix' else None
      end
  end.

(** The class [[a-z]]. *)
Definition isLower (c : ascii) : bool :=
  let n := nat_of_ascii c in (97 <=? n) && (n <=? 122).

Fixpoint allLower (s : string) : bool :=
  match s with
  | EmptyString => true
  | String c s' => isLower c && allLower s'
  end.

(** [regexp.MustCompile("^\\.Nm ([a-z]+)$").FindAllStringSubmatch(line, -1)]:
    the expression is anchored at both ends of the text, so there is at
    most one match; a match is the slice of the whole match and of group
    1. *)
Definition findDefinedName (line : string) : list (list string) :=
  match stripPrefix line ".Nm " with
  | Some word =>
      if negb (word =? "")%string && allLower word then [[line; word]] else []
  | None => []
  end.

(** NameResolver.  [result[0][0]] and [strings.Split(...)[1]] are Go
    index expressions. *)
Fixpoint getDefinedName (lines : list string) : outcome string :=
  match lines with
  | [] => Done ""
  | line :: lines' =>
      let result := findDefinedName line in
      if 0 <? length result then
        match0 <- index result 0 ;;
        whole <- index match0 0 ;;
        index (splitSpace whole) 1
      else getDefinedName lines'
  end.

(** [regexp.MustCompile("^\\.Nm( \\w+)?").MatchString(line)]: anchored at
    the start only, and the group is optional, so the expression matches
    exactly the lines that start with [.Nm]. *)
Definition isNameLine (line : string) : bool := hasPrefix line ".Nm".

(** ** SynopsisExtractor *)

(** The loop of [getSynopsisLines] from index [i] on, with its variables
    [start], [synopsis] and [usagePattern]; [continue] and falling off the
    end of the body go to the next line, [break] returns. *)
Fixpoint getSynopsisLines_loop (i : nat) (rest : list string) (start : nat)
  (synopsis : list (list string)) (usagePattern : Z)
  : outcome (list (list string)) :=
  match rest with
  | [] => Done synopsis
  | line :: rest' =>
      if isSynopsisLine line then
        getSynopsisLines_loop (S i) rest' i synopsis usagePattern
      else if negb (start =? 0) then
        if negb (hasPrefix line ".Sh" || hasPrefix line ".SH") then
          if compliantLine line then
            let '(synopsis, usagePattern) :=
              if isNameLine line || (usagePattern =? -1)%Z
              then ((synopsis ++ [[]])%list, (usagePattern + 1)%Z)
              else (synopsis, usagePattern) in
            group <- indexZ synopsis usagePattern ;;
            synopsis <- assignZ synopsis usagePattern (group ++ [line])%list ;;
            getSynopsisLines_loop (S i) rest' start synopsis usagePattern
          else getSynopsisLines_loop (S i) rest' start synopsis usagePattern
        else Done synopsis
      else getSynopsisLines_loop (S i) rest' start synopsis usagePattern
  end.

Definition getSynopsisLines (lines : list string)
  : outcome (list (list string)) :=
  getSynopsisLines_loop 0 lines 0 [] (-1)%Z.

(** ** The pipeline *)

(** [manfileToCommand] from the lines [loadFileToLines] returned on. *)
Definition manfileToCommand (rawlines : list string)
  : outcome (Command * error) :=
  lines <- getSynopsisLines rawlines ;;
  name <- getDefinedName rawlines ;;
  buildCommand name lines.

(** ** Rendering: the [String] methods and [prependDashes] *)

(** The line feed, byte 10, and the string ["\n"]. *)
Definition LF : ascii := ascii_of_nat 10.

Definition newline : string := String LF EmptyString.

(** [strings.Split(s, "\n")] *)
Fixpoint splitLines (s : string) : list string :=
  match s with
  | EmptyString => [EmptyString]
  | String c s' =>
      if Ascii.eqb c LF then EmptyString :: splitLines s'
      else match splitLines s' with
           | piece :: pieces => String c piece :: pieces
           | [] => [String c EmptyString]
           end
  end.

Section Rendering.

(** [strings.TrimSpace], of the Go library. *)
Variable trimSpace : string -> string.

(** The loop of [prependDashes], [out] threaded through. *)
Definition prependDashes (s : string) : string :=
  fold_left
    (fun out line =>
       if negb (trimSpace line =? "")%string
       then (out ++ "--" ++ line ++ newline)%string else out)
    (splitLines s) EmptyString.

(** [func (p Parameter) String() string].  [p.parameter.String()] on a
    [nil] pointer panics. *)
Fixpoint paramString (p : Param) : outcome string :=
  match p with
  | mkParam _ opt nsp harg arg hfl fl hpar nested =>
      let ret := EmptyString in
      let ret := if opt then (ret ++ "--optional" ++ newline)%string else ret in
      let ret := if nsp then (ret ++ "--nospace" ++ newline)%string else ret in
      let ret := if hfl then (ret ++ "--flags: " ++ fl ++ newline)%string
                 else ret in
      let ret := if harg then (ret ++ "--has argument: " ++ arg ++ newline)%string
                 else ret in
      ret <- (if hpar then
                match nested with
                | Some q =>
                    s <- paramString q ;;
                    Done (ret ++ "--has nested parameter:" ++ newline
                              ++ prependDashes s)%string
                | None => Panic "nil pointer dereference"
                end
              else Done ret) ;;
      Done (if negb (ret =? "")%string
            then ("Parameter:" ++ newline ++ ret)%string else ret)
  end.

(** The loop of [func (s Syntax) String() string]. *)
Fixpoint syntaxString_loop (params : list Param) (ret : string)
  : outcome string :=
  match params with
  | [] => Done ret
  | param :: params' =>
      s <- paramString param ;;
      syntaxString_loop params' (ret ++ s ++ newline)%string
  end.

Definition syntaxString (s : Syntax) : outcome string :=
  syntaxString_loop (parameters s) EmptyString.

(** The loop of [func (c Command) String() string]. *)
Fixpoint commandString_loop (syns : list Syntax) (ret : string)
  : outcome string :=
  match syns with
  | [] => Done ret
  | syn :: syns' =>
      s <- syntaxString syn ;;
      commandString_loop syns' (ret ++ prependDashes s ++ newline)%string
  end.

(** [fmt.Sprintf("Command: %s\n", c.name)] is the name between the two
    constant parts. *)
Definition commandString (c : Command) : outcome string :=
  commandString_loop (syntaxes c) ("Command: " ++ name c ++ newline)%string.

End Rendering.

(** [TrimSpace] on the six ASCII white space bytes, for examples. *)
Definition isAsciiSpace (c : ascii) : bool :=
  let n := nat_of_ascii c in
  (n =? 9) || (n =? 10) || (n =? 11) || (n =? 12) || (n =? 13) || (n =? 32).

Fixpoint trimLeftAsciiSpace (s : string) : string :=
  match s with
  | String c s' => if isAsciiSpace c then trimLeftAsciiSpace s' else s
  | EmptyString => EmptyString
  end.

Fixpoint revString (s acc : string) : string :=
  match s with
  | EmptyString => acc
  | String c s' => revString s' (String c acc)
  end.

Definition trimAsciiSpace (s : string) : string :=
  revString (trimLeftAsciiSpace (revString (trimLeftAsciiSpace s) "")) "".

(** * Properties *)

Open Scope list_scope.

(** ** Vocabulary of the properties *)

(** What [Ar] and [Fl] store: the next token, or the default. *)
Definition following (tokens : list string) (i : nat) (default : string)
  : string :=
  nth (i + 1) tokens default.

(** [moves self tokens i raw p p']: iteration [i], on token [raw], takes
    the parameter under construction from [p] to [p']. *)
Inductive moves (self : list string -> outcome (Param * error))
  (tokens : list string) (i : nat) (raw : string) (p : Param)
  : Param -> Prop :=
| mv_other :
    trimLeftDots raw <> "Op" -> trimLeftDots raw <> "Ar" ->
    trimLeftDots raw <> "Fl" ->
    moves self tokens i raw p p
| mv_Op_first :
    trimLeftDots raw = "Op" -> optional p = false ->
    moves self tokens i raw p (set_optional p true)
| mv_Op_again (tp : Param) (e : error) :
    trimLeftDots raw = "Op" -> optional p = true ->
    hasparameter p = false -> 1 <= i ->
    self (skipn i tokens) = Done (tp, e) ->
    moves self tokens i raw p
          (set_parameter (set_hasparameter p true) (Some tp))
| mv_Op_full :
    trimLeftDots raw = "Op" -> optional p = true ->
    hasparameter p = true ->
    moves self tokens i raw p p
| mv_Ar_first :
    trimLeftDots raw = "Ar" -> hasargument p = false ->
    moves self tokens i raw p
          (set_argument (set_hasargument p true) (following tokens i "files"))
| mv_Ar_again :
    trimLeftDots raw = "Ar" -> hasargument p = true ->
    moves self tokens i raw p p
| mv_Fl_first :
    trimLeftDots raw = "Fl" -> hasflags p = false ->
    moves self tokens i raw p
          (set_flags (set_hasflags p true) (following tokens i "-"))
| mv_Fl_again :
    trimLeftDots raw = "Fl" -> hasflags p = true ->
    moves self tokens i raw p p.

(** The recursive calls an iteration can make return. *)
Definition returns_on_suffixes (self : list string -> outcome (Param * error))
  (tokens : list string) : Prop :=
  forall i, 1 <= i -> i < length tokens ->
            exists q e, self (skipn i tokens) = Done (q, e).

(** Two candidates for the recursive call that agree on the strict
    suffixes [tokens[i:]], [1 <= i < len(tokens)]. *)
Definition agree_on_strict_suffixes (tokens : list string)
  (self1 self2 : list string -> outcome (Param * error)) : Prop :=
  forall i, 1 <= i -> i < length tokens ->
            self1 (skipn i tokens) = self2 (skipn i tokens).

(** The length of the [parameter] chain below a node. *)
Fixpoint depth (p : Param) : nat :=
  match p with
  | mkParam _ _ _ _ _ _ _ _ nested =>
      match nested with
      | Some q => S (depth q)
      | None => 0
      end
  end.

(** A candidate for the recursive call that refuses the whole list. *)
Definition refusing (tokens sub : list string) : outcome (Param * error) :=
  if list_eq_dec string_dec sub tokens
  then Panic "not a strict suffix" else buildParameter sub.

(** Tokens that are not the macro [m], leading dots apart. *)
Definition none_is (m : string) (l : list string) : Prop :=
  Forall (fun raw => trimLeftDots raw <> m) l.

(** A line none of whose tokens is [Op], [Ar] or [Fl]. *)
Definition no_grammar_macro (line : string) : Prop :=
  Forall (fun raw => trimLeftDots raw <> "Op" /\ trimLeftDots raw <> "Ar" /\
                     trimLeftDots raw <> "Fl") (splitSpace line).

(** What each line of a group builds, and what the group keeps of it. *)
Definition built_from (line : string) (p : Param) : Prop :=
  buildParameter (splitSpace line) = Done (p, None).

(** What a group of lines assembles to. *)
Definition assembled_from (lineset : list string) (syn : Syntax) : Prop :=
  buildSyntax lineset = Done (syn, None).

(** The lines the resolver looks for: [.Nm], one space, one non-empty word
    of the letters [a] to [z], and nothing else. *)
Definition defines_name (line word : string) : Prop :=
  line = (".Nm " ++ word)%string /\ word <> "" /\ allLower word = true.

(** How many tokens are the macro [m], leading dots apart. *)
Definition countMacro (m : string) (tokens : list string) : nat :=
  length (filter (fun raw => (trimLeftDots raw =? m)%string) tokens).

(** A token that is [Op], [Ar] or [Fl], and a line that has one. *)
Definition isGrammarMacro (raw : string) : bool :=
  (trimLeftDots raw =? "Op")%string || (trimLeftDots raw =? "Ar")%string ||
  (trimLeftDots raw =? "Fl")%string.

Definition hasGrammarMacro (line : string) : bool :=
  existsb isGrammarMacro (splitSpace line).

(** The marks of the result, read off the token counts seen so far. *)
Definition marks_at (tokens : list string) (i : nat) (p : Param) : Prop :=
  let seen := firstn i tokens in
  (optional p = true <-> 1 <= countMacro "Op" seen) /\
  (hasargument p = true <-> 1 <= countMacro "Ar" seen) /\
  (hasflags p = true <-> 1 <= countMacro "Fl" seen) /\
  (hasparameter p = true <-> 2 <= countMacro "Op" seen) /\
  nospace p = false /\ pname p = "" /\
  (hasargument p = false -> argument p = "") /\
  (hasflags p = false -> flags p = "").

(** The groups after one more compliant line of the section: a new group
    when the line starts with [.Nm] or there is no group yet, the line at
    the end of the last group otherwise. *)
Fixpoint appendToLast (groups : list (list string)) (line : string)
  : list (list string) :=
  match groups with
  | [] => []
  | [group] => [group ++ [line]]
  | group :: groups' => group :: appendToLast groups' line
  end.

Definition addLine (groups : list (list string)) (line : string)
  : list (list string) :=
  if isNameLine line || (length groups =? 0)
  then groups ++ [[line]] else appendToLast groups line.

(** What the lines of a section add to the groups. *)
Definition addLines (groups : list (list string)) (body : list string)
  : list (list string) :=
  fold_left
    (fun groups line => if compliantLine line then addLine groups line else groups)
    body groups.

(** A line that neither starts nor ends the section. *)
Definition inside_section (line : string) : Prop :=
  isSynopsisLine line = false /\
  hasPrefix line ".Sh" = false /\ hasPrefix line ".SH" = false.

(** A line that ends the section. *)
Definition ends_section (line : string) : Prop :=
  isSynopsisLine line = false /\
  (hasPrefix line ".Sh" = true \/ hasPrefix line ".SH" = true).

(** A parameter whose [String] method meets no [nil] pointer: wherever
    [hasparameter] is set on the way down, there is a nested node. *)
Fixpoint printable (p : Param) : Prop :=
  match p with
  | mkParam _ _ _ _ _ _ _ hpar nested =>
      if hpar then
        match nested with
        | Some q => printable q
        | None => False
        end
      else True
  end.

(** A group as the extractor builds it: not empty, made of compliant
    lines of the input that lie inside a section, and with no line after
    the first that starts with [.Nm]. *)
Definition well_formed_group (all : list string) (group : list string)
  : Prop :=
  group <> [] /\
  Forall (fun line => In line all /\ compliantLine line = true /\
                      inside_section line) group /\
  Forall (fun line => isNameLine line = false) (tl group).

Definition starts_with_name (group : list string) : Prop :=
  match group with
  | line :: _ => isNameLine line = true
  | [] => False
  end.

Definition well_formed_groups (all : list string)
  (groups : list (list string)) : Prop :=
  Forall (well_formed_group all) groups /\
  Forall starts_with_name (tl groups).

(** ** Outcomes *)

Lemma index_nth_error (A : Type) (s : list A) (i : nat) (a : A) :
  nth_error s i = Some a -> index s i = Done a.
Proof. unfold index; intros ->; reflexivity. Qed.

Lemma index_in_range (A : Type) (s : list A) (i : nat) :
  i < length s -> exists a, nth_error s i = Some a /\ index s i = Done a.
Proof.
  intros H. destruct (nth_error s i) as [a|] eqn:E.
  - exists a; split; [reflexivity | apply index_nth_error; exact E].
  - apply nth_error_None in E; lia.
Qed.

Lemma sliceFrom_in_range (A : Type) (s : list A) (i : nat) :
  i <= length s -> sliceFrom s i = Done (skipn i s).
Proof.
  intros H; unfold sliceFrom.
  destruct (Nat.leb_spec i (length s)); [reflexivity | lia].
Qed.

Lemma skipn_cons_inv (A : Type) (l : list A) (i : nat) (x : A) (r : list A) :
  skipn i l = x :: r ->
  nth_error l i = Some x /\ skipn (S i) l = r /\ i < length l.
Proof.
  revert l; induction i as [|i IH]; intros [|y l]; simpl; try discriminate.
  - intros [= -> ->]; repeat split; lia.
  - intros H; destruct (IH _ H) as (H1 & H2 & H3); repeat split; try assumption; lia.
Qed.

(** ** One iteration of the token loop, macro by macro *)

Section StepEquations.

Variable self : list string -> outcome (Param * error).
Variable tokens : list string.

Lemma step_other (i : nat) (raw : string) (st : Param * error) :
  trimLeftDots raw <> "Op" ->
  trimLeftDots raw <> "Ar" ->
  trimLeftDots raw <> "Fl" ->
  step self tokens i raw st = Done st.
Proof.
  intros HOp HAr HFl; unfold step, onOp, onAr, onFl; destruct st as [p err].
  apply String.eqb_neq in HOp, HAr, HFl.
  rewrite HOp; simpl; rewrite HAr; simpl; rewrite HFl; reflexivity.
Qed.

Lemma step_Op_first (i : nat) (raw : string) (p : Param) (err : error) :
  trimLeftDots raw = "Op" ->
  optional p = false ->
  step self tokens i raw (p, err) = Done (set_optional p true, err).
Proof.
  intros HOp Hopt; unfold step, onOp, onAr, onFl.
  rewrite HOp, Hopt; reflexivity.
Qed.

Lemma step_Op_again (i : nat) (raw : string) (p : Param) :
  trimLeftDots raw = "Op" ->
  optional p = true ->
  hasparameter p = false ->
  step self tokens i raw (p, None) =
    (sub <- sliceFrom tokens i ;;
     '(tp, _) <- self sub ;;
     Done (set_parameter (set_hasparameter p true) (Some tp), None)).
Proof.
  intros HOp Hopt Hpar; unfold step, onOp, onAr, onFl, attachNested.
  rewrite HOp, Hopt, Hpar; simpl.
  destruct (sliceFrom tokens i) as [sub| |]; simpl; try reflexivity.
  destruct (self sub) as [[tp e]| |]; reflexivity.
Qed.

Lemma step_Op_full (i : nat) (raw : string) (p : Param) (err : error) :
  trimLeftDots raw = "Op" ->
  optional p = true ->
  hasparameter p = true ->
  step self tokens i raw (p, err) = Done (p, err).
Proof.
  intros HOp Hopt Hpar; unfold step, onOp, onAr, onFl.
  rewrite HOp, Hopt, Hpar; reflexivity.
Qed.

Lemma step_Ar_first (i : nat) (raw : string) (p : Param) (err : error) :
  trimLeftDots raw = "Ar" ->
  hasargument p = false ->
  step self tokens i raw (p, err) =
    Done (set_argument (set_hasargument p true) (following tokens i "files"), err).
Proof.
  intros HAr Harg; unfold step, onOp, onAr, onFl, following.
  rewrite HAr; simpl; rewrite Harg; simpl.
  destruct (Nat.ltb_spec (i + 1) (length tokens)) as [Hlt | Hge].
  - destruct (index_in_range tokens Hlt) as (t & Hnth & ->); simpl.
    rewrite (nth_error_nth _ _ _ Hnth); reflexivity.
  - simpl; rewrite nth_overflow by lia; reflexivity.
Qed.

Lemma step_Ar_again (i : nat) (raw : string) (p : Param) (err : error) :
  trimLeftDots raw = "Ar" ->
  hasargument p = true ->
  step self tokens i raw (p, err) = Done (p, err).
Proof.
  intros HAr Harg; unfold step, onOp, onAr, onFl.
  rewrite HAr; simpl; rewrite Harg; reflexivity.
Qed.

Lemma step_Fl_first (i : nat) (raw : string) (p : Param) (err : error) :
  trimLeftDots raw = "Fl" ->
  hasflags p = false ->
  step self tokens i raw (p, err) =
    Done (set_flags (set_hasflags p true) (following tokens i "-"), err).
Proof.
  intros HFl Hfl; unfold step, onOp, onAr, onFl, following.
  rewrite HFl; simpl; rewrite Hfl; simpl.
  destruct (Nat.ltb_spec (i + 1) (length tokens)) as [Hlt | Hge].
  - destruct (index_in_range tokens Hlt) as (t & Hnth & ->); simpl.
    rewrite (nth_error_nth _ _ _ Hnth); reflexivity.
  - simpl; rewrite nth_overflow by lia; reflexivity.
Qed.

Lemma step_Fl_again (i : nat) (raw : string) (p : Param) (err : error) :
  trimLeftDots raw = "Fl" ->
  hasflags p = true ->
  step self tokens i raw (p, err) = Done (p, err).
Proof.
  intros HFl Hfl; unfold step, onOp, onAr, onFl.
  rewrite HFl; simpl; rewrite Hfl; reflexivity.
Qed.

End StepEquations.

(** ** The loop body as a relation *)

Lemma token_cases (raw : string) :
  trimLeftDots raw = "Op" \/ trimLeftDots raw = "Ar" \/
  trimLeftDots raw = "Fl" \/
  (trimLeftDots raw <> "Op" /\ trimLeftDots raw <> "Ar" /\
   trimLeftDots raw <> "Fl").
Proof.
  destruct (string_dec (trimLeftDots raw) "Op"); [tauto|].
  destruct (string_dec (trimLeftDots raw) "Ar"); [tauto|].
  destruct (string_dec (trimLeftDots raw) "Fl"); tauto.
Qed.

Section LoopBody.

Variable self : list string -> outcome (Param * error).
Variable tokens : list string.

(** Whatever an iteration returns is a move, and the error stays [nil]. *)
Lemma step_inv (i : nat) (raw : string) (p p' : Param) (err' : error) :
  (i = 0 -> optional p = false) ->
  i < length tokens ->
  step self tokens i raw (p, None) = Done (p', err') ->
  err' = None /\ moves self tokens i raw p p'.
Proof.
  intros H0 Hi.
  destruct (token_cases raw) as [HOp | [HAr | [HFl | (HOp & HAr & HFl)]]].
  - destruct (optional p) eqn:Hopt; [destruct (hasparameter p) eqn:Hpar|].
    + rewrite step_Op_full by assumption.
      intros [= <- <-]; split; [reflexivity | now apply mv_Op_full].
    + assert (1 <= i) by (destruct i; [specialize (H0 eq_refl); congruence | lia]).
      rewrite step_Op_again by assumption.
      rewrite sliceFrom_in_range by lia; simpl.
      destruct (self (skipn i tokens)) as [[tp e]| |] eqn:Hself;
        simpl; try discriminate.
      intros [= <- <-]; split; [reflexivity | now eapply mv_Op_again; eauto].
    + rewrite step_Op_first by assumption.
      intros [= <- <-]; split; [reflexivity | now apply mv_Op_first].
  - destruct (hasargument p) eqn:Harg.
    + rewrite step_Ar_again by assumption.
      intros [= <- <-]; split; [reflexivity | now apply mv_Ar_again].
    + rewrite step_Ar_first by assumption.
      intros [= <- <-]; split; [reflexivity | now apply mv_Ar_first].
  - destruct (hasflags p) eqn:Hfl.
    + rewrite step_Fl_again by assumption.
      intros [= <- <-]; split; [reflexivity | now apply mv_Fl_again].
    + rewrite step_Fl_first by assumption.
      intros [= <- <-]; split; [reflexivity | now apply mv_Fl_first].
  - rewrite step_other by assumption.
    intros [= <- <-]; split; [reflexivity | now apply mv_other].
Qed.

Lemma step_progress (i : nat) (raw : string) (p : Param) :
  returns_on_suffixes self tokens ->
  (i = 0 -> optional p = false) ->
  i < length tokens ->
  exists st', step self tokens i raw (p, None) = Done st'.
Proof.
  intros Hself H0 Hi.
  destruct (token_cases raw) as [HOp | [HAr | [HFl | (HOp & HAr & HFl)]]].
  - destruct (optional p) eqn:Hopt; [destruct (hasparameter p) eqn:Hpar|].
    + rewrite step_Op_full by assumption; eauto.
    + assert (1 <= i) by (destruct i; [specialize (H0 eq_refl); congruence | lia]).
      rewrite step_Op_again by assumption.
      rewrite sliceFrom_in_range by lia; simpl.
      destruct (Hself i) as (q & e & ->); [assumption .. |]; simpl; eauto.
    + rewrite step_Op_first by assumption; eauto.
  - destruct (hasargument p) eqn:Harg.
    + rewrite step_Ar_again by assumption; eauto.
    + rewrite step_Ar_first by assumption; eauto.
  - destruct (hasflags p) eqn:Hfl.
    + rewrite step_Fl_again by assumption; eauto.
    + rewrite step_Fl_first by assumption; eauto.
  - rewrite step_other by assumption; eauto.
Qed.

(** The invariant rule for the token loop: a property of the index and
    of the parameter under construction that every move preserves holds
    when the loop ends, and the loop does end. *)
Lemma scan_invariant (I : nat -> Param -> Prop) :
  returns_on_suffixes self tokens ->
  (forall i raw p p',
      nth_error tokens i = Some raw -> I i p ->
      moves self tokens i raw p p' -> I (S i) p') ->
  forall rest i p,
    skipn i tokens = rest -> i <= length tokens ->
    (i = 0 -> optional p = false) -> I i p ->
    exists p', scan self tokens i rest (p, None) = Done (p', None) /\
               I (length tokens) p'.
Proof.
  intros Hself Hpres rest; induction rest as [|raw rest IH];
    intros i p Hrest Hle H0 HI.
  - assert (i = length tokens) as ->.
    { apply (f_equal (@length _)) in Hrest.
      rewrite length_skipn in Hrest; simpl in Hrest; lia. }
    exists p; split; [reflexivity | exact HI].
  - destruct (skipn_cons_inv _ _ Hrest) as (Hnth & Hnext & Hi).
    destruct (@step_progress i raw p Hself H0 Hi) as ([p' err'] & Hstep).
    destruct (@step_inv i raw p p' err' H0 Hi Hstep) as (-> & Hmv).
    simpl; rewrite Hstep; simpl.
    apply IH; try lia; [exact Hnext |].
    + eapply Hpres; eauto.
Qed.

End LoopBody.

(** ** The recursion of [buildParameter] *)

Lemma step_ext (self1 self2 : list string -> outcome (Param * error))
  (tokens : list string) (i : nat) (raw : string) (p : Param) :
  agree_on_strict_suffixes tokens self1 self2 ->
  (i = 0 -> optional p = false) ->
  i < length tokens ->
  step self1 tokens i raw (p, None) = step self2 tokens i raw (p, None).
Proof.
  intros Hagree H0 Hi.
  destruct (token_cases raw) as [HOp | [HAr | [HFl | (HOp & HAr & HFl)]]].
  - destruct (optional p) eqn:Hopt; [destruct (hasparameter p) eqn:Hpar|].
    + rewrite !step_Op_full by assumption; reflexivity.
    + assert (1 <= i) by (destruct i; [specialize (H0 eq_refl); congruence | lia]).
      rewrite !step_Op_again by assumption.
      rewrite sliceFrom_in_range by lia; simpl.
      rewrite Hagree by assumption; reflexivity.
    + rewrite !step_Op_first by assumption; reflexivity.
  - destruct (hasargument p) eqn:Harg.
    + rewrite !step_Ar_again by assumption; reflexivity.
    + rewrite !step_Ar_first by assumption; reflexivity.
  - destruct (hasflags p) eqn:Hfl.
    + rewrite !step_Fl_again by assumption; reflexivity.
    + rewrite !step_Fl_first by assumption; reflexivity.
  - rewrite !step_other by assumption; reflexivity.
Qed.

Lemma scan_ext (self1 self2 : list string -> outcome (Param * error))
  (tokens : list string) :
  agree_on_strict_suffixes tokens self1 self2 ->
  forall rest i p,
    skipn i tokens = rest ->
    (i = 0 -> optional p = false) ->
    scan self1 tokens i rest (p, None) = scan self2 tokens i rest (p, None).
Proof.
  intros Hagree rest; induction rest as [|raw rest IH]; intros i p Hrest H0.
  - reflexivity.
  - destruct (skipn_cons_inv _ _ Hrest) as (Hnth & Hnext & Hi).
    simpl. rewrite (@step_ext self1 self2 tokens i raw p Hagree H0 Hi).
    destruct (step self2 tokens i raw (p, None)) as [[p' err']| |] eqn:Hstep;
      simpl; try reflexivity.
    destruct (@step_inv self2 tokens i raw p p' err' H0 Hi Hstep) as (-> & _).
    apply IH; [exact Hnext | lia].
Qed.

Lemma buildParameter_fuel_total (fuel : nat) :
  forall tokens, length tokens < fuel ->
                 exists p, buildParameter_fuel fuel tokens = Done (p, None).
Proof.
  induction fuel as [|fuel IH]; intros tokens Hlen; [lia|].
  simpl.
  destruct (@scan_invariant (buildParameter_fuel fuel) tokens (fun _ _ => True))
    with (rest := tokens) (i := 0) (p := zeroParam) as (p & Hp & _); auto with arith.
  - intros i Hi1 Hi2.
    destruct (IH (skipn i tokens)) as (q & Hq).
    + rewrite length_skipn; lia.
    + exists q, None; exact Hq.
  - exists p; exact Hp.
Qed.

Lemma buildParameter_fuel_irrelevant (fuel1 : nat) :
  forall fuel2 tokens,
    length tokens < fuel1 -> length tokens < fuel2 ->
    buildParameter_fuel fuel1 tokens = buildParameter_fuel fuel2 tokens.
Proof.
  induction fuel1 as [|fuel1 IH]; intros [|fuel2] tokens H1 H2; try lia.
  simpl; apply scan_ext; auto.
  intros i Hi1 Hi2; apply IH; rewrite length_skipn; lia.
Qed.

(** The equation of the Go function: the body, with the function itself
    at the recursive call sites. *)
Lemma buildParameter_unfold (tokens : list string) :
  buildParameter tokens = scan buildParameter tokens 0 tokens (zeroParam, None).
Proof.
  unfold buildParameter at 1; simpl.
  apply scan_ext; auto.
  intros i Hi1 Hi2; unfold buildParameter.
  apply buildParameter_fuel_irrelevant; rewrite length_skipn; lia.
Qed.

Lemma buildParameter_total (tokens : list string) :
  exists p, buildParameter tokens = Done (p, None).
Proof. apply buildParameter_fuel_total; lia. Qed.

(** The invariant rule, for the function itself. *)
Lemma buildParameter_invariant (tokens : list string)
  (I : nat -> Param -> Prop) :
  I 0 zeroParam ->
  (forall i raw p p',
      nth_error tokens i = Some raw -> I i p ->
      moves buildParameter tokens i raw p p' -> I (S i) p') ->
  exists p, buildParameter tokens = Done (p, None) /\ I (length tokens) p.
Proof.
  intros H0 Hpres; rewrite buildParameter_unfold.
  apply scan_invariant; auto with arith.
  intros i _ _; destruct (buildParameter_total (skipn i tokens)) as (q & Hq).
  exists q, None; exact Hq.
Qed.

Lemma buildParameter_depth (n : nat) :
  forall tokens p e,
    length tokens <= n ->
    buildParameter tokens = Done (p, e) -> depth p <= length tokens.
Proof.
  induction n as [|n IH]; intros tokens p e Hlen Hp.
  - destruct tokens; [|simpl in Hlen; lia].
    injection Hp as <- _; simpl; lia.
  - destruct (@buildParameter_invariant tokens
                (fun _ q => depth q <= length tokens)) as (p' & Hp' & Hd).
    + simpl; lia.
    + intros i raw q q' Hnth Hq Hmv.
      assert (Hi : i < length tokens)
        by (apply nth_error_Some; rewrite Hnth; discriminate).
      destruct Hmv; try exact Hq; try (destruct q; exact Hq).
      destruct q; simpl.
      match goal with H : buildParameter _ = Done _ |- _ =>
        apply IH in H; [rewrite length_skipn in H; lia
                       | rewrite length_skipn; lia] end.
    + rewrite Hp in Hp'; injection Hp' as -> _; exact Hd.
Qed.

(** ** Termination of the builder *)

(** C9.  [buildParameter] returns on every token list, with a [nil]
    error, whatever fuel above the number of tokens it is given.  The
    function satisfies the recursive equation of the source, and its body
    looks at the recursive call only on strict suffixes [tokens[i:]] with
    [1 <= i < len(tokens)]: two candidates for the call that agree there
    give the same run.  The [parameter] chain of the result is no longer
    than the token list. *)
Theorem buildParameter_terminates (tokens : list string) :
  (exists p, buildParameter tokens = Done (p, None) /\
             depth p <= length tokens) /\
  (forall fuel, length tokens < fuel ->
                buildParameter_fuel fuel tokens = buildParameter tokens) /\
  buildParameter tokens =
    scan buildParameter tokens 0 tokens (zeroParam, None) /\
  (forall self1 self2,
      agree_on_strict_suffixes tokens self1 self2 ->
      scan self1 tokens 0 tokens (zeroParam, None) =
      scan self2 tokens 0 tokens (zeroParam, None)).
Proof.
  repeat split.
  - destruct (buildParameter_total tokens) as (p & Hp).
    exists p; split; [exact Hp |].
    eapply buildParameter_depth; [apply Nat.le_refl | exact Hp].
  - intros fuel Hfuel; unfold buildParameter.
    apply buildParameter_fuel_irrelevant; lia.
  - apply buildParameter_unfold.
  - intros self1 self2 Hagree; apply scan_ext; auto.
Qed.

Lemma buildParameter_terminates_witness :
  let tokens := [".Op"; "Fl"; "x"; "Op"; "Ar"; "file"] in
  (exists p, buildParameter tokens = Done (p, None) /\ depth p <= 6) /\
  buildParameter_fuel 9 tokens = buildParameter tokens /\
  scan buildParameter tokens 0 tokens (zeroParam, None) =
  scan (refusing tokens) tokens 0 tokens (zeroParam, None).
Proof.
  intros tokens.
  destruct (buildParameter_terminates tokens) as (Hp & Hfuel & _ & Hext).
  split; [exact Hp | split].
  - apply Hfuel; simpl; lia.
  - apply Hext. intros i Hi1 Hi2.
    do 6 (destruct i as [|i]; [try lia; reflexivity |]).
    simpl in Hi2; lia.
Defined.

(** ** First sightings *)

Lemma nth_error_split_cases (pre : list string) (t : string)
  (post : list string) (i : nat) (raw : string) :
  nth_error (pre ++ t :: post) i = Some raw ->
  (i < length pre /\ In raw pre) \/
  (i = length pre /\ raw = t) \/
  (length pre < i /\ nth_error post (i - S (length pre)) = Some raw).
Proof.
  intros H. destruct (Nat.lt_trichotomy i (length pre)) as [Hlt | [Heq | Hgt]].
  - left; split; [exact Hlt |].
    rewrite nth_error_app1 in H by exact Hlt. eapply nth_error_In; eauto.
  - right; left; split; [exact Heq |].
    rewrite nth_error_app2, Heq, Nat.sub_diag in H by lia.
    simpl in H; congruence.
  - right; right; split; [exact Hgt |].
    rewrite nth_error_app2 in H by lia.
    destruct (i - length pre) as [|k] eqn:Hk; [lia |].
    simpl in H. replace (i - S (length pre)) with k by lia. exact H.
Qed.

Lemma following_app (pre : list string) (t : string) (post : list string)
  (default : string) :
  following (pre ++ t :: post) (length pre) default =
  match post with next :: _ => next | [] => default end.
Proof.
  unfold following. rewrite app_nth2 by lia.
  replace (length pre + 1 - length pre) with 1 by lia.
  destruct post; reflexivity.
Qed.

Lemma first_Ar (pre : list string) (t : string) (post : list string) :
  none_is "Ar" pre -> trimLeftDots t = "Ar" ->
  exists p, buildParameter (pre ++ t :: post) = Done (p, None) /\
            hasargument p = true /\
            argument p = match post with next :: _ => next | [] => "files" end.
Proof.
  intros Hpre Ht. set (tokens := (pre ++ t :: post)%list).
  destruct (@buildParameter_invariant tokens
    (fun i p => (i <= length pre -> hasargument p = false) /\
                (length pre < i ->
                 hasargument p = true /\
                 argument p = following tokens (length pre) "files")))
    as (p & Hp & HI).
  - split; [reflexivity | simpl; lia].
  - intros i raw p p' Hnth (Hbefore & Hafter) Hmv.
    apply nth_error_split_cases in Hnth.
    destruct Hnth as [(Hi & Hin) | [(-> & ->) | (Hi & _)]].
    + assert (trimLeftDots raw <> "Ar")
        by (eapply (proj1 (Forall_forall _ _)) in Hpre; eauto).
      specialize (Hbefore ltac:(lia)).
      split; [intros _ | lia].
      destruct Hmv; simpl; congruence.
    + specialize (Hbefore ltac:(lia)).
      split; [lia | intros _].
      destruct Hmv; simpl; try congruence; auto.
    + destruct (Hafter Hi) as (H1 & H2).
      split; [lia | intros _].
      destruct Hmv; simpl; try congruence; auto.
  - exists p; split; [exact Hp |].
    destruct HI as (_ & HI). unfold tokens in HI.
    rewrite length_app, following_app in HI; simpl in HI.
    apply HI; lia.
Qed.

Lemma first_Fl (pre : list string) (t : string) (post : list string) :
  none_is "Fl" pre -> trimLeftDots t = "Fl" ->
  exists p, buildParameter (pre ++ t :: post) = Done (p, None) /\
            hasflags p = true /\
            flags p = match post with next :: _ => next | [] => "-" end.
Proof.
  intros Hpre Ht. set (tokens := (pre ++ t :: post)%list).
  destruct (@buildParameter_invariant tokens
    (fun i p => (i <= length pre -> hasflags p = false) /\
                (length pre < i ->
                 hasflags p = true /\
                 flags p = following tokens (length pre) "-")))
    as (p & Hp & HI).
  - split; [reflexivity | simpl; lia].
  - intros i raw p p' Hnth (Hbefore & Hafter) Hmv.
    apply nth_error_split_cases in Hnth.
    destruct Hnth as [(Hi & Hin) | [(-> & ->) | (Hi & _)]].
    + assert (trimLeftDots raw <> "Fl")
        by (eapply (proj1 (Forall_forall _ _)) in Hpre; eauto).
      specialize (Hbefore ltac:(lia)).
      split; [intros _ | lia].
      destruct Hmv; simpl; congruence.
    + specialize (Hbefore ltac:(lia)).
      split; [lia | intros _].
      destruct Hmv; simpl; try congruence; auto.
    + destruct (Hafter Hi) as (H1 & H2).
      split; [lia | intros _].
      destruct Hmv; simpl; try congruence; auto.
  - exists p; split; [exact Hp |].
    destruct HI as (_ & HI). unfold tokens in HI.
    rewrite length_app, following_app in HI; simpl in HI.
    apply HI; lia.
Qed.

(** C6.  [["Ar"]] gives the argument ["files"] and [["Fl"]] the flags
    ["-"]; in any token list, the first [Ar] (the first [Fl]) stores the
    token that follows it when there is one, and the default when it is
    the last token. *)
Theorem parameter_defaults :
  (exists p, buildParameter ["Ar"] = Done (p, None) /\
             hasargument p = true /\ argument p = "files") /\
  (exists p, buildParameter ["Fl"] = Done (p, None) /\
             hasflags p = true /\ flags p = "-") /\
  (forall pre t next post,
      none_is "Ar" pre -> trimLeftDots t = "Ar" ->
      exists p, buildParameter (pre ++ t :: next :: post) = Done (p, None) /\
                hasargument p = true /\ argument p = next) /\
  (forall pre t next post,
      none_is "Fl" pre -> trimLeftDots t = "Fl" ->
      exists p, buildParameter (pre ++ t :: next :: post) = Done (p, None) /\
                hasflags p = true /\ flags p = next) /\
  (forall pre t,
      none_is "Ar" pre -> trimLeftDots t = "Ar" ->
      exists p, buildParameter (pre ++ [t]) = Done (p, None) /\
                hasargument p = true /\ argument p = "files") /\
  (forall pre t,
      none_is "Fl" pre -> trimLeftDots t = "Fl" ->
      exists p, buildParameter (pre ++ [t]) = Done (p, None) /\
                hasflags p = true /\ flags p = "-").
Proof.
  split; [| split; [| split; [| split; [| split]]]].
  - apply (@first_Ar [] "Ar" []); [constructor | reflexivity].
  - apply (@first_Fl [] "Fl" []); [constructor | reflexivity].
  - intros pre t next post Hpre Ht.
    apply (@first_Ar pre t (next :: post) Hpre Ht).
  - intros pre t next post Hpre Ht.
    apply (@first_Fl pre t (next :: post) Hpre Ht).
  - intros pre t Hpre Ht. apply (@first_Ar pre t [] Hpre Ht).
  - intros pre t Hpre Ht. apply (@first_Fl pre t [] Hpre Ht).
Qed.

Lemma parameter_defaults_witness :
  (exists p, buildParameter [".Op"; "Ar"; "file"; "Ar"; "dir"] = Done (p, None) /\
             hasargument p = true /\ argument p = "file") /\
  (exists p, buildParameter [".Op"; "Fl"; "x"; "Ar"; "file"] = Done (p, None) /\
             hasflags p = true /\ flags p = "x") /\
  (exists p, buildParameter [".Op"; ".Ar"] = Done (p, None) /\
             hasargument p = true /\ argument p = "files") /\
  (exists p, buildParameter [".Op"; "Fl"] = Done (p, None) /\
             hasflags p = true /\ flags p = "-").
Proof.
  destruct parameter_defaults as (_ & _ & HAr & HFl & HAr0 & HFl0).
  split; [| split; [| split]].
  - apply (HAr [".Op"] "Ar" "file" ["Ar"; "dir"]);
      [repeat constructor; simpl; discriminate | reflexivity].
  - apply (HFl [".Op"] "Fl" "x" ["Ar"; "file"]);
      [repeat constructor; simpl; discriminate | reflexivity].
  - apply (HAr0 [".Op"] ".Ar");
      [repeat constructor; simpl; discriminate | reflexivity].
  - apply (HFl0 [".Op"] "Fl");
      [repeat constructor; simpl; discriminate | reflexivity].
Defined.

(** ** The optional-group macro *)

Lemma buildParameter_Done_nil (tokens : list string) (p : Param) (e : error) :
  buildParameter tokens = Done (p, e) -> e = None.
Proof.
  destruct (buildParameter_total tokens) as (q & Hq).
  rewrite Hq; intros [= _ <-]; reflexivity.
Qed.

(** Once an [Op] has been seen, [optional] is set. *)
Lemma first_Op (pre : list string) (t : string) (post : list string) :
  trimLeftDots t = "Op" ->
  exists p, buildParameter (pre ++ t :: post) = Done (p, None) /\
            optional p = true.
Proof.
  intros Ht. set (tokens := (pre ++ t :: post)%list).
  destruct (@buildParameter_invariant tokens
    (fun i p => length pre < i -> optional p = true)) as (p & Hp & HI).
  - simpl; lia.
  - intros i raw p p' Hnth Hafter Hmv Hlt.
    apply nth_error_split_cases in Hnth.
    destruct Hnth as [(Hi & Hin) | [(-> & ->) | (Hi & _)]].
    + lia.
    + destruct Hmv; simpl; congruence.
    + specialize (Hafter Hi). destruct Hmv; simpl; congruence.
  - exists p; split; [exact Hp |].
    apply HI. unfold tokens; rewrite length_app; simpl; lia.
Qed.

Lemma skipn_app_cons (pre : list string) (t : string) (post : list string) :
  skipn (length pre) (pre ++ t :: post) = t :: post.
Proof.
  rewrite skipn_app, skipn_all, Nat.sub_diag; reflexivity.
Qed.

(** The second [Op] attaches what the builder returns on the tokens from
    that [Op] on. *)
Lemma second_Op (a : list string) (o1 : string) (b : list string)
  (o2 : string) (c : list string) :
  none_is "Op" a -> trimLeftDots o1 = "Op" ->
  none_is "Op" b -> trimLeftDots o2 = "Op" ->
  exists p q,
    buildParameter (a ++ o1 :: b ++ o2 :: c) = Done (p, None) /\
    optional p = true /\ hasparameter p = true /\ parameter p = Some q /\
    buildParameter (o2 :: c) = Done (q, None) /\ optional q = true.
Proof.
  intros Ha Ho1 Hb Ho2.
  destruct (@first_Op [] o2 c Ho2) as (q & Hq & Hqopt); simpl in Hq.
  set (pre := (a ++ o1 :: b)%list).
  set (tokens := (a ++ o1 :: b ++ o2 :: c)%list).
  assert (Htok : tokens = (pre ++ o2 :: c)%list).
  { unfold tokens, pre; rewrite <- app_assoc; reflexivity. }
  destruct (@buildParameter_invariant tokens
    (fun i p =>
       (i <= length a -> optional p = false /\ hasparameter p = false) /\
       (length a < i <= length pre ->
        optional p = true /\ hasparameter p = false) /\
       (length pre < i ->
        optional p = true /\ hasparameter p = true /\ parameter p = Some q)))
    as (p & Hp & HI).
  - repeat split; simpl; try reflexivity; lia.
  - intros i raw p p' Hnth (H1 & H2 & H3) Hmv.
    assert (Hlen : length pre = length a + S (length b))
      by (unfold pre; rewrite length_app; reflexivity).
    assert (Hskip : skipn (length pre) tokens = o2 :: c)
      by (rewrite Htok; apply skipn_app_cons).
    apply nth_error_split_cases in Hnth.
    destruct Hnth as [(Hi & Hin) | [(Hi & ->) | (Hi & Hnth)]].
    + (* before the first Op *)
      assert (trimLeftDots raw <> "Op")
        by (eapply (proj1 (Forall_forall _ _)) in Ha; eauto).
      destruct (H1 ltac:(lia)) as (Hopt & Hpar).
      repeat split; intros; try lia; destruct Hmv; simpl; congruence.
    + (* at the first Op *)
      destruct (H1 ltac:(lia)) as (Hopt & Hpar).
      repeat split; intros; try lia; destruct Hmv; simpl; congruence.
    + apply nth_error_split_cases in Hnth.
      destruct Hnth as [(Hj & Hin) | [(Hj & ->) | (Hj & _)]].
      * (* between the two *)
        assert (trimLeftDots raw <> "Op")
          by (eapply (proj1 (Forall_forall _ _)) in Hb; eauto).
        destruct (H2 ltac:(lia)) as (Hopt & Hpar).
        repeat split; intros; try lia; destruct Hmv; simpl; congruence.
      * (* at the second Op *)
        destruct (H2 ltac:(lia)) as (Hopt & Hpar).
        assert (i = length pre) as -> by lia.
        repeat split; intros; try lia; destruct Hmv; simpl; congruence.
      * (* after the second Op *)
        destruct (H3 ltac:(lia)) as (Hopt & Hpar & Hnested).
        repeat split; intros; try lia; destruct Hmv; simpl; congruence.
  - destruct HI as (_ & _ & HI).
    destruct HI as (Hopt & Hpar & Hnested).
    { rewrite Htok, length_app; simpl; lia. }
    exists p, q; repeat split; assumption.
Qed.

Lemma nth_error_skipn_cons (A : Type) (l : list A) (i : nat) (x : A) :
  nth_error l i = Some x -> exists r, skipn i l = x :: r.
Proof.
  revert l; induction i as [|i IH]; intros [|y l]; simpl; try discriminate.
  - intros [= ->]; eauto.
  - apply IH.
Qed.

(** C3.  In a run of the builder, a token list with an [Op] gives
    [optional = true]; with a second [Op], the result carries as
    [parameter] exactly what the builder returns on the tokens from the
    second [Op] on, and that nested node has [optional = true] itself.
    Iteration by iteration: on [Op] with [optional] unset the body sets it
    and nothing else; on [Op] with [optional] set and no nested parameter
    yet it sets [hasparameter] and stores the result of the builder on
    [tokens[i:]], whose first token is the [Op] at hand. *)
Theorem Op_sightings :
  (forall pre t post,
      trimLeftDots t = "Op" ->
      exists p, buildParameter (pre ++ t :: post) = Done (p, None) /\
                optional p = true) /\
  (forall a o1 b o2 c,
      none_is "Op" a -> trimLeftDots o1 = "Op" ->
      none_is "Op" b -> trimLeftDots o2 = "Op" ->
      exists p q,
        buildParameter (a ++ o1 :: b ++ o2 :: c) = Done (p, None) /\
        optional p = true /\ hasparameter p = true /\ parameter p = Some q /\
        buildParameter (o2 :: c) = Done (q, None) /\ optional q = true) /\
  (forall tokens i raw p,
      nth_error tokens i = Some raw -> trimLeftDots raw = "Op" ->
      optional p = false ->
      step buildParameter tokens i raw (p, None) =
      Done (set_optional p true, None)) /\
  (forall tokens i raw p,
      nth_error tokens i = Some raw -> trimLeftDots raw = "Op" ->
      optional p = true -> hasparameter p = false -> 1 <= i ->
      exists q rest,
        skipn i tokens = raw :: rest /\
        buildParameter (raw :: rest) = Done (q, None) /\
        optional q = true /\
        step buildParameter tokens i raw (p, None) =
        Done (set_parameter (set_hasparameter p true) (Some q), None)).
Proof.
  split; [| split; [| split]].
  - intros pre t post Ht; apply first_Op; exact Ht.
  - intros a o1 b o2 c; apply second_Op.
  - intros tokens i raw p _ HOp Hopt. apply step_Op_first; assumption.
  - intros tokens i raw p Hnth HOp Hopt Hpar Hi.
    destruct (nth_error_skipn_cons _ _ Hnth) as (rest & Hskip).
    destruct (@first_Op [] raw rest HOp) as (q & Hq & Hqopt); simpl in Hq.
    exists q, rest; repeat split; try assumption.
    rewrite step_Op_again by assumption.
    rewrite sliceFrom_in_range.
    + simpl; rewrite Hskip, Hq; reflexivity.
    + apply Nat.lt_le_incl, nth_error_Some; rewrite Hnth; discriminate.
Qed.

Lemma Op_sightings_witness :
  (exists p, buildParameter [".Nm"; ".Op"; "Fl"; "x"] = Done (p, None) /\
             optional p = true) /\
  (exists p q,
      buildParameter [".Nm"; ".Op"; "Fl"; "x"; "Op"; "Ar"; "file"]
      = Done (p, None) /\
      optional p = true /\ hasparameter p = true /\ parameter p = Some q /\
      buildParameter ["Op"; "Ar"; "file"] = Done (q, None) /\
      optional q = true) /\
  step buildParameter [".Op"; "Op"] 0 ".Op" (zeroParam, None) =
  Done (set_optional zeroParam true, None) /\
  (exists q rest,
      skipn 1 [".Op"; "Op"] = "Op" :: rest /\
      buildParameter ("Op" :: rest) = Done (q, None) /\
      optional q = true /\
      step buildParameter [".Op"; "Op"] 1 "Op"
           (set_optional zeroParam true, None) =
      Done (set_parameter
              (set_hasparameter (set_optional zeroParam true) true)
              (Some q), None)).
Proof.
  destruct Op_sightings as (H1 & H2 & H3 & H4).
  split; [| split; [| split]].
  - apply (H1 [".Nm"] ".Op" ["Fl"; "x"]); reflexivity.
  - apply (H2 [".Nm"] ".Op" ["Fl"; "x"] "Op" ["Ar"; "file"]);
      try reflexivity; repeat constructor; simpl; discriminate.
  - apply H3; reflexivity.
  - apply H4; try reflexivity; lia.
Defined.

(** ** Repeated [Ar] and [Fl] *)

(** C1.  On [["Ar"; "src"; "Ar"; "dst"]] the builder returns a node with
    [argument = "src"] and no nested parameter: the second [Ar] fails the
    guard [token == "Ar" && !p.hasargument], so the branch that would
    attach one is never entered. *)
Theorem second_Ar_attaches_nothing :
  buildParameter ["Ar"; "src"; "Ar"; "dst"] =
  Done (mkParam "" false false true "src" false "" false None, None).
Proof. reflexivity. Qed.

Example second_Fl_attaches_nothing :
  buildParameter ["Fl"; "x"; "Fl"; "y"] =
  Done (mkParam "" false false false "" true "x" false None, None).
Proof. reflexivity. Qed.

(** The sibling path does attach: a second [Op] gives a nested node. *)
Example second_Op_attaches :
  buildParameter ["Op"; "src"; "Op"; "dst"] =
  Done (mkParam "" true false false "" false "" true
          (Some (mkParam "" true false false "" false "" false None)), None).
Proof. reflexivity. Qed.

(** Only [Op] ever attaches a nested parameter: with at most one [Op]
    among the tokens there is none, however many [Ar] and [Fl] there
    are. *)
Lemma nested_only_from_Op (tokens : list string) :
  (forall j k raw1 raw2,
      nth_error tokens j = Some raw1 -> trimLeftDots raw1 = "Op" ->
      nth_error tokens k = Some raw2 -> trimLeftDots raw2 = "Op" -> j = k) ->
  exists p, buildParameter tokens = Done (p, None) /\
            hasparameter p = false /\ parameter p = None.
Proof.
  intros Honce.
  destruct (@buildParameter_invariant tokens
    (fun i p => hasparameter p = false /\ parameter p = None /\
                (optional p = true ->
                 exists j raw, j < i /\ nth_error tokens j = Some raw /\
                               trimLeftDots raw = "Op")))
    as (p & Hp & HI).
  - repeat split; simpl; discriminate.
  - intros i raw p p' Hnth (Hpar & Hnested & Hseen) Hmv.
    destruct Hmv; simpl; repeat split; try assumption;
      try (intros Hopt; destruct (Hseen Hopt) as (j & r & Hj & Hr & HOp);
           exists j, r; repeat split; try assumption; lia).
    + intros _; exists i, raw; repeat split; try assumption; lia.
    + destruct Hseen as (j & r & Hj & Hr & HOp); [assumption |].
      assert (j = i) by (eapply Honce; eauto). lia.
    + destruct Hseen as (j & r & Hj & Hr & HOp); [assumption |].
      assert (j = i) by (eapply Honce; eauto). lia.
  - exists p; tauto.
Qed.

(** ** The assemblers *)

Lemma buildParameter_no_macro (tokens : list string) :
  Forall (fun raw => trimLeftDots raw <> "Op" /\ trimLeftDots raw <> "Ar" /\
                     trimLeftDots raw <> "Fl") tokens ->
  buildParameter tokens = Done (zeroParam, None).
Proof.
  intros Hnone.
  destruct (@buildParameter_invariant tokens (fun _ p => p = zeroParam))
    as (p & Hp & ->); [reflexivity | | exact Hp].
  intros i raw p p' Hnth -> Hmv.
  apply nth_error_In in Hnth.
  eapply (proj1 (Forall_forall _ _)) in Hnone; [| exact Hnth].
  destruct Hnone as (HOp & HAr & HFl).
  destruct Hmv; congruence.
Qed.

Lemma buildSyntax_loop_spec (lines : list string) :
  forall params,
  exists ps, Forall2 built_from lines ps /\
             buildSyntax_loop lines params None =
             Done (mkSyntax (params ++ filter isValidParameter ps), None).
Proof.
  induction lines as [|line lines IH]; intros params.
  - exists []; split; [constructor | simpl; rewrite app_nil_r; reflexivity].
  - destruct (buildParameter_total (splitSpace line)) as (p & Hp).
    simpl; rewrite Hp; simpl.
    destruct (isValidParameter p) eqn:Hvalid.
    + destruct (IH (params ++ [p])) as (ps & Hall & Hrun).
      exists (p :: ps); split; [constructor; assumption |].
      rewrite Hrun; simpl; rewrite Hvalid, <- app_assoc; reflexivity.
    + destruct (IH params) as (ps & Hall & Hrun).
      exists (p :: ps); split; [constructor; assumption |].
      rewrite Hrun; simpl; rewrite Hvalid; reflexivity.
Qed.

Lemma buildSyntax_spec (lines : list string) :
  exists ps, Forall2 built_from lines ps /\
             buildSyntax lines =
             Done (mkSyntax (filter isValidParameter ps), None).
Proof. apply (buildSyntax_loop_spec lines []). Qed.

Lemma buildCommand_loop_spec (paramLines : list (list string)) :
  forall syntax,
  exists syns, Forall2 assembled_from paramLines syns /\
               buildCommand_loop paramLines syntax None =
               Done (syntax ++ filter isValidSyntax syns, None).
Proof.
  induction paramLines as [|lineset paramLines IH]; intros syntax.
  - exists []; split; [constructor | simpl; rewrite app_nil_r; reflexivity].
  - destruct (buildSyntax_spec lineset) as (ps & _ & Hsyn).
    simpl; rewrite Hsyn; simpl.
    set (syn := mkSyntax (filter isValidParameter ps)) in *.
    destruct (isValidSyntax syn) eqn:Hvalid.
    + destruct (IH (syntax ++ [syn])) as (syns & Hall & Hrun).
      exists (syn :: syns); split; [constructor; assumption |].
      rewrite Hrun; simpl; rewrite Hvalid, <- app_assoc; reflexivity.
    + destruct (IH syntax) as (syns & Hall & Hrun).
      exists (syn :: syns); split; [constructor; assumption |].
      rewrite Hrun; simpl; rewrite Hvalid; reflexivity.
Qed.

Lemma buildCommand_spec (name : string) (paramLines : list (list string)) :
  exists syns,
    Forall2 assembled_from paramLines syns /\
    buildCommand name paramLines =
    Done (mkCommand name (filter isValidSyntax syns),
          if length (filter isValidSyntax syns) =? 0
          then noSyntaxesFound else None).
Proof.
  destruct (buildCommand_loop_spec paramLines []) as (syns & Hall & Hrun).
  exists syns; split; [exact Hall |].
  unfold buildCommand; rewrite Hrun; reflexivity.
Qed.

Lemma Forall2_In_r (A B : Type) (R : A -> B -> Prop) (l : list A)
  (l' : list B) (b : B) :
  Forall2 R l l' -> In b l' -> exists a, In a l /\ R a b.
Proof.
  induction 1 as [|x y l l' Hxy _ IH]; simpl; [tauto |].
  intros [<- | Hin]; [eauto |].
  destruct (IH Hin) as (a & Ha & HR); eauto.
Qed.

Lemma buildSyntax_only_valid (lines : list string) (syn : Syntax) (e : error) :
  buildSyntax lines = Done (syn, e) ->
  forall p, In p (parameters syn) -> isValidParameter p = true.
Proof.
  destruct (buildSyntax_spec lines) as (ps & _ & ->).
  intros [= <- _] p Hin; simpl in Hin.
  apply filter_In in Hin; tauto.
Qed.

Lemma buildCommand_only_valid (name : string) (paramLines : list (list string))
  (cmd : Command) (err : error) :
  buildCommand name paramLines = Done (cmd, err) ->
  forall syn p, In syn (syntaxes cmd) -> In p (parameters syn) ->
                isValidParameter p = true.
Proof.
  destruct (buildCommand_spec name paramLines) as (syns & Hall & ->).
  intros [= <- _] syn p Hsyn Hp; simpl in Hsyn.
  apply filter_In in Hsyn; destruct Hsyn as (Hsyn & _).
  destruct (@Forall2_In_r _ _ _ _ _ _ Hall Hsyn) as (lineset & _ & Hbuilt).
  eapply buildSyntax_only_valid; eauto.
Qed.

(** A group of lines without [Op], [Ar] and [Fl] assembles to the empty
    syntax. *)
Lemma buildSyntax_no_macro (lines : list string) :
  Forall no_grammar_macro lines ->
  buildSyntax lines = Done (mkSyntax [], None).
Proof.
  intros Hlines. destruct (buildSyntax_spec lines) as (ps & Hall & ->).
  assert (Hps : Forall (fun p => p = zeroParam) ps).
  { clear -Hlines Hall. induction Hall as [|line p lines ps Hp _ IH];
      [constructor |].
    inversion Hlines as [|? ? Hline Hrest]; subst.
    constructor; [| apply IH; exact Hrest].
    unfold built_from in Hp.
    rewrite (buildParameter_no_macro Hline) in Hp; congruence. }
  replace (filter isValidParameter ps) with (@nil Param); [reflexivity |].
  clear -Hps; induction Hps as [|p ps -> _ IH]; simpl; congruence.
Qed.

Lemma buildCommand_no_macro (name : string) (paramLines : list (list string)) :
  Forall (Forall no_grammar_macro) paramLines ->
  buildCommand name paramLines = Done (mkCommand name [], noSyntaxesFound).
Proof.
  intros Hgroups.
  destruct (buildCommand_spec name paramLines) as (syns & Hall & ->).
  assert (Hsyns : Forall (fun syn => syn = mkSyntax []) syns).
  { clear -Hgroups Hall. induction Hall as [|g syn gs syns Hsyn _ IH];
      [constructor |].
    inversion Hgroups as [|? ? Hg Hrest]; subst.
    constructor; [| apply IH; exact Hrest].
    unfold assembled_from in Hsyn.
    rewrite (buildSyntax_no_macro Hg) in Hsyn; congruence. }
  replace (filter isValidSyntax syns) with (@nil Syntax); [reflexivity |].
  clear -Hsyns; induction Hsyns as [|syn syns -> _ IH]; simpl; congruence.
Qed.

(** ** The name resolver *)

Lemma stripPrefix_Some (prefix : string) :
  forall s r, stripPrefix s prefix = Some r -> s = (prefix ++ r)%string.
Proof.
  induction prefix as [|c prefix IH]; intros s r; simpl.
  - intros [= ->]; reflexivity.
  - destruct s as [|d s]; [discriminate |].
    destruct (Ascii.eqb_spec c d) as [<- | _]; [| discriminate].
    intros H; rewrite (IH _ _ H); reflexivity.
Qed.

Lemma allLower_splitSpace (w : string) :
  allLower w = true -> splitSpace w = [w].
Proof.
  induction w as [|c w IH]; simpl; [reflexivity |].
  intros H; apply andb_prop in H; destruct H as (Hc & Hw).
  rewrite (IH Hw).
  destruct (Ascii.eqb_spec c " ") as [-> | _]; [discriminate | reflexivity].
Qed.

Lemma findDefinedName_defines (line word : string) :
  defines_name line word -> findDefinedName line = [[line; word]].
Proof.
  intros (-> & Hne & Hlower); unfold findDefinedName; simpl.
  rewrite Hlower. apply String.eqb_neq in Hne; rewrite Hne; reflexivity.
Qed.

Lemma findDefinedName_cases (line : string) :
  findDefinedName line = [] \/ exists word, defines_name line word.
Proof.
  unfold findDefinedName.
  destruct (stripPrefix line ".Nm ") as [word|] eqn:Hstrip; [| left; reflexivity].
  destruct (String.eqb_spec word "") as [-> | Hne]; simpl; [left; reflexivity |].
  destruct (allLower word) eqn:Hlower; [| left; reflexivity].
  right; exists word; repeat split; try assumption.
  apply stripPrefix_Some; exact Hstrip.
Qed.

Lemma getDefinedName_here (line word : string) (rest : list string) :
  defines_name line word -> getDefinedName (line :: rest) = Done word.
Proof.
  intros Hdef; simpl. rewrite (findDefinedName_defines Hdef); simpl.
  destruct Hdef as (-> & _ & Hlower); simpl.
  rewrite (allLower_splitSpace _ Hlower); reflexivity.
Qed.

Lemma getDefinedName_skip (line : string) (rest : list string) :
  (forall word, ~ defines_name line word) ->
  getDefinedName (line :: rest) = getDefinedName rest.
Proof.
  intros Hnot; simpl.
  destruct (findDefinedName_cases line) as [-> | (word & Hdef)];
    [reflexivity | destruct (Hnot word Hdef)].
Qed.

Lemma getDefinedName_total (lines : list string) :
  exists name, getDefinedName lines = Done name.
Proof.
  induction lines as [|line lines IH]; [exists ""; reflexivity |].
  destruct (findDefinedName_cases line) as [Hnone | (word & Hdef)].
  - simpl; rewrite Hnone; exact IH.
  - exists word; apply getDefinedName_here; exact Hdef.
Qed.

(** C7.  The resolver returns the word of the first line that is exactly
    [.Nm], a space and a lowercase word, and the empty string when there
    is no such line; [.Nm grep] resolves to [grep], and the name of the
    command the pipeline builds is what the resolver returns. *)
Theorem getDefinedName_spec :
  (forall pre line word post,
      (forall l w, In l pre -> ~ defines_name l w) ->
      defines_name line word ->
      getDefinedName (pre ++ line :: post) = Done word) /\
  (forall lines,
      (forall l w, In l lines -> ~ defines_name l w) ->
      getDefinedName lines = Done "") /\
  getDefinedName [".Nm grep"] = Done "grep" /\
  getDefinedName [".Dd May 1"; ".Dt GREP 1"; ".Sh NAME"; ".Nm grep"; ".Nm egrep"]
  = Done "grep" /\
  getDefinedName [".Sh NAME"; ".Nm"; ".Nm Grep"; ".Nm grep ,"; " .Nm grep"]
  = Done "" /\
  (forall rawlines cmd err,
      manfileToCommand rawlines = Done (cmd, err) ->
      getDefinedName rawlines = Done (name cmd)).
Proof.
  split; [| split; [| split; [| split; [| split]]]]; try reflexivity.
  - intros pre line word post Hpre Hdef.
    induction pre as [|l pre IH]; simpl app.
    + apply getDefinedName_here; exact Hdef.
    + rewrite getDefinedName_skip.
      * apply IH. intros l' w Hin; apply Hpre; right; exact Hin.
      * intros w; apply Hpre; left; reflexivity.
  - intros lines Hlines.
    induction lines as [|l lines IH]; [reflexivity |].
    rewrite getDefinedName_skip.
    + apply IH. intros l' w Hin; apply Hlines; right; exact Hin.
    + intros w; apply Hlines; left; reflexivity.
  - intros rawlines cmd err; unfold manfileToCommand.
    destruct (getSynopsisLines rawlines) as [groups| |]; simpl; try discriminate.
    destruct (getDefinedName rawlines) as [nm| |]; simpl; try discriminate.
    destruct (buildCommand_spec nm groups) as (syns & _ & ->).
    intros [= <- _]; reflexivity.
Qed.

Lemma getDefinedName_spec_witness :
  getDefinedName ([".Sh NAME"; ".Nm"] ++ ".Nm grep" :: [".Nm egrep"])
  = Done "grep" /\
  getDefinedName [".Sh NAME"; ".Nm"] = Done "".
Proof.
  destruct getDefinedName_spec as (Hfirst & Hnone & _).
  assert (Hpre : forall l w, In l [".Sh NAME"; ".Nm"] -> ~ defines_name l w).
  { intros l w [<- | [<- | []]] (H & _); simpl in H; discriminate. }
  split.
  - apply Hfirst; [exact Hpre |].
    repeat split; [discriminate].
  - apply Hnone; exact Hpre.
Defined.

(** ** The heading classifier *)

Lemma hasPrefix_inv (prefix : string) :
  forall s, hasPrefix s prefix = true -> exists rest, s = (prefix ++ rest)%string.
Proof.
  induction prefix as [|c prefix IH]; intros s; cbn [hasPrefix append].
  - intros _; exists s; reflexivity.
  - destruct s as [|d s]; [discriminate |].
    destruct (Ascii.eqb_spec c d) as [<- | _]; [| discriminate].
    cbn [andb]; intros H; destruct (IH s H) as (rest & ->).
    exists rest; reflexivity.
Qed.

Ltac pick_rendering tag word rest :=
  exists tag, word, rest;
  split; [simpl; tauto | split; [simpl; tauto | reflexivity]].

(** C4.  The double quote is byte 34, written ["034"] below.  A line that
    starts with one of [.Sh], [.Sh] between double quotes and [.SH], then
    a space, then one of [synopsis], [synopsis] between double quotes and
    [SYNOPSIS], is a synopsis heading, for all nine pairs and whatever
    follows, and no other line is one.  So a line that starts with one of
    the three tags and a space is rejected whenever what follows the
    space does not start with one of the three words: with [description],
    as written, quoted or uppercased, for one.  The three tags and the
    three words are what [pass], [quoteString] and [strings.ToUpper] make
    of [.Sh] and of [synopsis]. *)
Theorem isSynopsisLine_renderings :
  let tags :=
    [".Sh"; (String "034"%char ".Sh" ++ String "034"%char "")%string; ".SH"] in
  let words :=
    ["synopsis"; (String "034"%char "synopsis" ++ String "034"%char "")%string;
     "SYNOPSIS"] in
  let others :=
    ["description";
     (String "034"%char "description" ++ String "034"%char "")%string;
     "DESCRIPTION"] in
  (forall tag word rest,
      In tag tags -> In word words ->
      isSynopsisLine (tag ++ " " ++ word ++ rest)%string = true) /\
  (forall line,
      isSynopsisLine line = true ->
      exists tag word rest,
        In tag tags /\ In word words /\
        line = (tag ++ " " ++ word ++ rest)%string) /\
  (forall tag tail,
      In tag tags ->
      (forall word rest, In word words -> tail <> (word ++ rest)%string) ->
      isSynopsisLine (tag ++ " " ++ tail)%string = false) /\
  (forall tag word rest,
      In tag tags -> In word others ->
      isSynopsisLine (tag ++ " " ++ word ++ rest)%string = false) /\
  [pass ".Sh"; quoteString ".Sh"; toUpper ".Sh"] = tags /\
  [pass "synopsis"; quoteString "synopsis"; toUpper "synopsis"] = words.
Proof.
  cbv zeta.
  assert (Hshape : forall line,
             isSynopsisLine line = true ->
             exists tag word rest,
               In tag [".Sh";
                       (String "034"%char ".Sh" ++ String "034"%char "")%string;
                       ".SH"] /\
               In word ["synopsis";
                        (String "034"%char "synopsis"
                           ++ String "034"%char "")%string;
                        "SYNOPSIS"] /\
               line = (tag ++ " " ++ word ++ rest)%string).
  { intros line. unfold isSynopsisLine, modfunctions; cbn [fold_left].
    rewrite !Bool.orb_true_iff. intros H.
    repeat (destruct H as [H | H]); try discriminate;
      apply hasPrefix_inv in H; destruct H as (rest & ->);
      first
        [ pick_rendering ".Sh" "synopsis" rest
        | pick_rendering ".Sh" "SYNOPSIS" rest
        | pick_rendering ".Sh"
            (String "034"%char "synopsis" ++ String "034"%char "")%string rest
        | pick_rendering ".SH" "synopsis" rest
        | pick_rendering ".SH" "SYNOPSIS" rest
        | pick_rendering ".SH"
            (String "034"%char "synopsis" ++ String "034"%char "")%string rest
        | pick_rendering
            (String "034"%char ".Sh" ++ String "034"%char "")%string
            "synopsis" rest
        | pick_rendering
            (String "034"%char ".Sh" ++ String "034"%char "")%string
            "SYNOPSIS" rest
        | pick_rendering
            (String "034"%char ".Sh" ++ String "034"%char "")%string
            (String "034"%char "synopsis" ++ String "034"%char "")%string
            rest ]. }
  split; [| split; [exact Hshape | split; [| split; [| split]]]].
  - intros tag word rest Htag Hword; simpl in Htag, Hword.
    destruct Htag as [<- | [<- | [<- | []]]];
      destruct Hword as [<- | [<- | [<- | []]]]; reflexivity.
  - intros tag tail Htag Hno.
    destruct (isSynopsisLine (tag ++ " " ++ tail)%string) eqn:Hsyn;
      [| reflexivity].
    destruct (Hshape _ Hsyn) as (tag' & word & rest & Htag' & Hword & Heq).
    exfalso; apply (Hno word rest Hword).
    simpl in Htag, Htag'.
    destruct Htag as [<- | [<- | [<- | []]]];
      destruct Htag' as [<- | [<- | [<- | []]]];
      simpl in Heq; try discriminate; injection Heq as Heq; exact Heq.
  - intros tag word rest Htag Hword; simpl in Htag, Hword.
    destruct Htag as [<- | [<- | [<- | []]]];
      destruct Hword as [<- | [<- | [<- | []]]]; reflexivity.
  - reflexivity.
  - reflexivity.
Qed.

Lemma isSynopsisLine_renderings_witness :
  isSynopsisLine (".Sh" ++ " " ++ "SYNOPSIS" ++ "")%string = true /\
  isSynopsisLine
    (".SH" ++ " " ++ (String "034"%char "synopsis" ++ String "034"%char "")
       ++ " x")%string = true /\
  isSynopsisLine
    ((String "034"%char ".Sh" ++ String "034"%char "") ++ " " ++ "synopsis"
       ++ "")%string = true /\
  isSynopsisLine (".Sh" ++ " " ++ "DESCRIPTION" ++ "")%string = false /\
  isSynopsisLine (".Sh" ++ " " ++ "NAME")%string = false /\
  isSynopsisLine (".SH" ++ " " ++ "Synopsis")%string = false.
Proof.
  destruct isSynopsisLine_renderings as (Hyes & _ & Hother & Hno & _).
  split; [| split; [| split; [| split; [| split]]]].
  - apply (Hyes ".Sh" "SYNOPSIS" ""); simpl; tauto.
  - apply (Hyes ".SH"
             (String "034"%char "synopsis" ++ String "034"%char "")%string
             " x"); simpl; tauto.
  - apply (Hyes (String "034"%char ".Sh" ++ String "034"%char "")%string
             "synopsis" ""); simpl; tauto.
  - apply (Hno ".Sh" "DESCRIPTION" ""); simpl; tauto.
  - apply (Hother ".Sh" "NAME"); [simpl; tauto |].
    intros word rest [<- | [<- | [<- | []]]]; simpl; discriminate.
  - apply (Hother ".SH" "Synopsis"); [simpl; tauto |].
    intros word rest [<- | [<- | [<- | []]]]; simpl; discriminate.
Defined.

(** ** The synopsis extractor *)

Lemma length_setNth (A : Type) (s : list A) (i : nat) (v : A) :
  length (setNth s i v) = length s.
Proof.
  revert i; induction s as [|h s IH]; intros [|i]; simpl; try reflexivity.
  rewrite IH; reflexivity.
Qed.

(** [synopsis[usagePattern] = append(synopsis[usagePattern], line)] does
    not panic while [usagePattern] is the index of the last group. *)
Lemma append_to_last (synopsis : list (list string)) (usagePattern : Z)
  (line : string) :
  usagePattern = (Z.of_nat (length synopsis) - 1)%Z ->
  (0 <= usagePattern)%Z ->
  exists group synopsis',
    indexZ synopsis usagePattern = Done group /\
    assignZ synopsis usagePattern (group ++ [line]) = Done synopsis' /\
    length synopsis' = length synopsis.
Proof.
  intros Hup Hpos. unfold indexZ, assignZ.
  destruct (Z.ltb_spec usagePattern 0) as [Hneg | _]; [lia |].
  assert (Hlt : Z.to_nat usagePattern < length synopsis) by lia.
  destruct (index_in_range synopsis Hlt) as (group & _ & ->).
  destruct (Nat.ltb_spec (Z.to_nat usagePattern) (length synopsis)); [| lia].
  exists group; eexists; split; [reflexivity |].
  split; [reflexivity | apply length_setNth].
Qed.

Lemma getSynopsisLines_loop_total (rest : list string) :
  forall i start synopsis usagePattern,
    usagePattern = (Z.of_nat (length synopsis) - 1)%Z ->
    exists groups,
      getSynopsisLines_loop i rest start synopsis usagePattern = Done groups.
Proof.
  induction rest as [|line rest IH]; intros i start synopsis up Hup;
    cbn [getSynopsisLines_loop].
  - eauto.
  - destruct (isSynopsisLine line); [apply IH; exact Hup |].
    destruct (negb (start =? 0)); [| apply IH; exact Hup].
    destruct (negb _); [| eauto].
    destruct (compliantLine line); [| apply IH; exact Hup].
    destruct (isNameLine line || (up =? -1)%Z) eqn:Hnew.
    + destruct (@append_to_last (synopsis ++ [[]]) (up + 1)%Z line)
        as (group & synopsis' & Hget & Hset & Hlen).
      * rewrite length_app; simpl; lia.
      * lia.
      * rewrite Hget; cbn [bind]; rewrite Hset; cbn [bind].
        apply IH. rewrite Hlen, length_app; simpl; lia.
    + apply orb_false_elim in Hnew; destruct Hnew as (_ & Hnew).
      apply Z.eqb_neq in Hnew.
      destruct (@append_to_last synopsis up line)
        as (group & synopsis' & Hget & Hset & Hlen); [exact Hup | lia |].
      rewrite Hget; cbn [bind]; rewrite Hset; cbn [bind].
      apply IH. rewrite Hlen; exact Hup.
Qed.

Lemma getSynopsisLines_total (lines : list string) :
  exists groups, getSynopsisLines lines = Done groups.
Proof. apply getSynopsisLines_loop_total; reflexivity. Qed.

(** The pipeline returns on every document. *)
Lemma manfileToCommand_total (rawlines : list string) :
  exists cmd err, manfileToCommand rawlines = Done (cmd, err).
Proof.
  unfold manfileToCommand.
  destruct (getSynopsisLines_total rawlines) as (groups & ->).
  destruct (getDefinedName_total rawlines) as (nm & ->); simpl.
  destruct (buildCommand_spec nm groups) as (syns & _ & ->); eauto.
Qed.

(** While [start] is [0] and no heading comes, nothing is collected. *)
Lemma getSynopsisLines_loop_unstarted (rest : list string) :
  Forall (fun line => isSynopsisLine line = false) rest ->
  forall i synopsis usagePattern,
    getSynopsisLines_loop i rest 0 synopsis usagePattern = Done synopsis.
Proof.
  induction 1 as [|line rest Hline _ IH]; intros i synopsis up; simpl.
  - reflexivity.
  - rewrite Hline; simpl; apply IH.
Qed.

(** C10.  When the heading is the first line of the input and no later
    line is a synopsis heading, the extractor returns no group, whatever
    follows the heading: [start] is set to the heading's index [0], which
    is also its value before any heading is found. *)
Theorem heading_at_index_0 (heading : string) (rest : list string) :
  isSynopsisLine heading = true ->
  Forall (fun line => isSynopsisLine line = false) rest ->
  getSynopsisLines (heading :: rest) = Done [].
Proof.
  intros Hheading Hrest; unfold getSynopsisLines; simpl.
  rewrite Hheading. apply getSynopsisLines_loop_unstarted; exact Hrest.
Qed.

Lemma heading_at_index_0_witness :
  getSynopsisLines
    [".Sh SYNOPSIS"; ".Nm foo"; ".Op Fl x"; ".Nm foo"; ".Ar file";
     ".Sh DESCRIPTION"; ".Nm bar"] = Done [].
Proof.
  apply heading_at_index_0; [reflexivity |].
  repeat constructor.
Defined.

(** The same lines after one more line are collected. *)
Example heading_after_first_line :
  getSynopsisLines
    [".Dd May 1"; ".Sh SYNOPSIS"; ".Nm foo"; ".Op Fl x"; ".Nm foo"; ".Ar file";
     ".Sh DESCRIPTION"; ".Nm bar"]
  = Done [[".Nm foo"; ".Op Fl x"]; [".Nm foo"; ".Ar file"]].
Proof. reflexivity. Qed.

(** A later heading starts the section even when the first line is one. *)
Example second_heading_restarts :
  getSynopsisLines [".Sh SYNOPSIS"; ".Nm foo"; ".Sh SYNOPSIS"; ".Nm bar"]
  = Done [[".Nm bar"]].
Proof. reflexivity. Qed.

(** C5.  On the heading, [.Nm foo], [.Op Fl x], [.Nm foo], [.Ar file] and
    a new section heading, in this order and nothing before, the extractor
    returns no group at all. *)
Theorem grouping_example_at_index_0 :
  getSynopsisLines
    [".Sh SYNOPSIS"; ".Nm foo"; ".Op Fl x"; ".Nm foo"; ".Ar file";
     ".Sh DESCRIPTION"] = Done [].
Proof. reflexivity. Qed.

(** The first compliant line opens a group without [.Nm]. *)
Example first_line_fallback :
  getSynopsisLines
    [".Dd May 1"; ".Sh SYNOPSIS"; ".Op Fl x"; "plain text"; ".Nm foo";
     ".Ar file"; ".Sh DESCRIPTION"]
  = Done [[".Op Fl x"]; [".Nm foo"; ".Ar file"]].
Proof. reflexivity. Qed.

(** ** Failure of the command assembler *)

Lemma buildSyntax_Done_nil (lines : list string) (syn : Syntax) (e : error) :
  buildSyntax lines = Done (syn, e) -> e = None.
Proof.
  destruct (buildSyntax_spec lines) as (ps & _ & ->).
  intros [= _ <-]; reflexivity.
Qed.

(** C2.  [buildCommand] returns the syntaxes it kept, the valid ones among
    what the groups assemble to, and its error is ["No syntaxes found"]
    exactly when it kept none and [nil] otherwise: no other error ever
    comes out, since neither [buildParameter] nor [buildSyntax] returns
    one.  Groups whose lines hold no [Op], [Ar] or [Fl] token (lines with
    the name macro only) give the failure, from [buildCommand] and from
    the whole pipeline. *)
Theorem buildCommand_failure :
  (forall name paramLines,
      exists syns err,
        Forall2 assembled_from paramLines syns /\
        buildCommand name paramLines =
        Done (mkCommand name (filter isValidSyntax syns), err) /\
        (err = Some "No syntaxes found" <-> filter isValidSyntax syns = []) /\
        (filter isValidSyntax syns <> [] -> err = None)) /\
  (forall tokens p e, buildParameter tokens = Done (p, e) -> e = None) /\
  (forall lines syn e, buildSyntax lines = Done (syn, e) -> e = None) /\
  (forall name paramLines,
      Forall (Forall no_grammar_macro) paramLines ->
      buildCommand name paramLines =
      Done (mkCommand name [], Some "No syntaxes found")) /\
  (forall rawlines groups,
      getSynopsisLines rawlines = Done groups ->
      Forall (Forall no_grammar_macro) groups ->
      exists name,
        manfileToCommand rawlines =
        Done (mkCommand name [], Some "No syntaxes found")).
Proof.
  split; [| split; [| split; [| split]]].
  - intros name paramLines.
    destruct (buildCommand_spec name paramLines) as (syns & Hall & Hrun).
    exists syns; eexists; split; [exact Hall | split; [exact Hrun |]].
    destruct (filter isValidSyntax syns) as [|syn kept]; simpl;
      unfold noSyntaxesFound; split; try tauto; try discriminate;
      split; discriminate.
  - apply buildParameter_Done_nil.
  - apply buildSyntax_Done_nil.
  - apply buildCommand_no_macro.
  - intros rawlines groups Hgroups Hnone; unfold manfileToCommand.
    rewrite Hgroups; simpl.
    destruct (getDefinedName_total rawlines) as (nm & ->); simpl.
    exists nm; apply buildCommand_no_macro; exact Hnone.
Qed.

Lemma buildCommand_failure_witness :
  buildCommand "foo" [[".Nm foo"; ".Nm"]; [".Nm foo bar"]] =
  Done (mkCommand "foo" [], Some "No syntaxes found") /\
  (exists name,
      manfileToCommand
        [".Dd May 1"; ".Nm foo"; ".Sh SYNOPSIS"; ".Nm foo"; ".Nm";
         ".Sh DESCRIPTION"; ".Op Fl x"] =
      Done (mkCommand name [], Some "No syntaxes found")).
Proof.
  destruct buildCommand_failure as (_ & _ & _ & Hbuild & Hpipe).
  split.
  - apply Hbuild. unfold no_grammar_macro; simpl.
    repeat constructor; discriminate.
  - apply (Hpipe _ [[".Nm foo"]; [".Nm"]]); [reflexivity |].
    unfold no_grammar_macro; simpl.
    repeat constructor; discriminate.
Defined.

(** ** Validity of the parameters kept *)

Lemma built_hasparameter (tokens : list string) (p : Param) (e : error) :
  buildParameter tokens = Done (p, e) ->
  (hasparameter p = true <-> parameter p <> None).
Proof.
  destruct (@buildParameter_invariant tokens
    (fun _ q => hasparameter q = true <-> parameter q <> None))
    as (q & -> & HI).
  - simpl; split; [discriminate | congruence].
  - intros i raw q q' _ Hq Hmv; destruct Hmv; simpl; try exact Hq.
    split; [discriminate | reflexivity].
  - intros [= <- _]; exact HI.
Qed.

(** C8.  The validity test is the disjunction of the five marks.  Every
    parameter of every syntax [buildSyntax], [buildCommand] and the
    pipeline return passes it, and has a nested node exactly when
    [hasparameter] is set.  A line without [Op], [Ar] and [Fl] (the name
    macro alone, say) builds the zero parameter, which fails the test and
    which [buildSyntax] does not keep. *)
Theorem only_valid_parameters :
  (forall p,
      isValidParameter p = true <->
      (optional p = true \/ nospace p = true \/ hasflags p = true \/
       hasargument p = true \/ hasparameter p = true)) /\
  (forall lines syn e p,
      buildSyntax lines = Done (syn, e) -> In p (parameters syn) ->
      isValidParameter p = true) /\
  (forall name paramLines cmd err syn p,
      buildCommand name paramLines = Done (cmd, err) ->
      In syn (syntaxes cmd) -> In p (parameters syn) ->
      isValidParameter p = true) /\
  (forall rawlines cmd err syn p,
      manfileToCommand rawlines = Done (cmd, err) ->
      In syn (syntaxes cmd) -> In p (parameters syn) ->
      isValidParameter p = true) /\
  (forall tokens p e,
      buildParameter tokens = Done (p, e) ->
      (hasparameter p = true <-> parameter p <> None)) /\
  (forall line,
      no_grammar_macro line ->
      buildParameter (splitSpace line) = Done (zeroParam, None) /\
      isValidParameter zeroParam = false /\
      forall lines params err,
        buildSyntax_loop (line :: lines) params err =
        buildSyntax_loop lines params err).
Proof.
  split; [| split; [| split; [| split; [| split]]]].
  - intros p; unfold isValidParameter.
    destruct (optional p), (nospace p), (hasflags p), (hasargument p),
      (hasparameter p); simpl; intuition congruence.
  - intros lines syn e p Hrun Hin.
    eapply buildSyntax_only_valid; eauto.
  - intros name paramLines cmd err syn p Hrun Hsyn Hp.
    eapply buildCommand_only_valid; eauto.
  - intros rawlines cmd err syn p; unfold manfileToCommand.
    destruct (getSynopsisLines rawlines) as [groups| |]; simpl; try discriminate.
    destruct (getDefinedName rawlines) as [nm| |]; simpl; try discriminate.
    intros Hrun Hsyn Hp. eapply buildCommand_only_valid; eauto.
  - apply built_hasparameter.
  - intros line Hline.
    pose proof (buildParameter_no_macro Hline) as Hzero.
    split; [exact Hzero | split; [reflexivity |]].
    intros lines params err; simpl; rewrite Hzero; reflexivity.
Qed.

Lemma only_valid_parameters_witness :
  manfileToCommand
    [".Dd May 1"; ".Sh SYNOPSIS"; ".Nm foo"; ".Op Fl x"; ".Sh DESCRIPTION"] =
  Done (mkCommand "foo"
          [mkSyntax [mkParam "" true false false "" true "x" false None]],
        None) /\
  isValidParameter (mkParam "" true false false "" true "x" false None) = true /\
  buildParameter (splitSpace ".Nm foo") = Done (zeroParam, None) /\
  buildSyntax [".Nm foo"; ".Op Fl x"] = buildSyntax [".Op Fl x"].
Proof.
  destruct only_valid_parameters as (_ & _ & _ & Hpipe & _ & Hzero).
  split; [reflexivity | split].
  - eapply (Hpipe [".Dd May 1"; ".Sh SYNOPSIS"; ".Nm foo"; ".Op Fl x";
                   ".Sh DESCRIPTION"]);
      [reflexivity | simpl; left; reflexivity | simpl; left; reflexivity].
  - assert (Hline : no_grammar_macro ".Nm foo").
    { unfold no_grammar_macro; simpl. repeat constructor; discriminate. }
    destruct (Hzero ".Nm foo" Hline) as (Hbuilt & _ & Hskip).
    split; [exact Hbuilt | apply Hskip].
Defined.

(** * Further properties of the builder *)

Lemma firstn_S_nth_error (A : Type) (l : list A) (i : nat) (x : A) :
  nth_error l i = Some x -> firstn (S i) l = firstn i l ++ [x].
Proof.
  revert l; induction i as [|i IH]; intros [|y l]; simpl; try discriminate.
  - intros [= ->]; reflexivity.
  - intros H; rewrite <- (IH _ H); reflexivity.
Qed.

Lemma countMacro_snoc (m : string) (l : list string) (raw : string) :
  countMacro m (l ++ [raw]) =
  countMacro m l + (if (trimLeftDots raw =? m)%string then 1 else 0).
Proof.
  unfold countMacro; rewrite filter_app, length_app; simpl.
  destruct (trimLeftDots raw =? m)%string; reflexivity.
Qed.

Lemma countMacro_split (m : string) (l : list string) (i : nat) :
  countMacro m l = countMacro m (firstn i l) + countMacro m (skipn i l).
Proof.
  unfold countMacro.
  rewrite <- (firstn_skipn i l) at 1. rewrite filter_app, length_app.
  reflexivity.
Qed.

Lemma depth_no_nested (p : Param) : parameter p = None -> depth p = 0.
Proof. destruct p; simpl; intros ->; reflexivity. Qed.

Lemma marks_preserved (self : list string -> outcome (Param * error))
  (tokens : list string) (i : nat) (raw : string) (p p' : Param) :
  nth_error tokens i = Some raw ->
  marks_at tokens i p ->
  moves self tokens i raw p p' ->
  marks_at tokens (S i) p'.
Proof.
  intros Hnth HI Hmv; unfold marks_at in *.
  rewrite (firstn_S_nth_error _ _ Hnth), !countMacro_snoc.
  cbv zeta in HI.
  destruct HI as (HOp & HAr & HFl & Hpar & Hnsp & Hname & Harg & Hflags).
  destruct Hmv as [H1 H2 H3 | H1 H2 | tp e H1 H2 H3 H4 H5 | H1 H2 H3
                  | H1 H2 | H1 H2 | H1 H2 | H1 H2];
    try (apply String.eqb_neq in H1, H2, H3; rewrite H1, H2, H3);
    try (rewrite H1); simpl;
    (destruct (optional p), (hasargument p), (hasflags p), (hasparameter p);
     try discriminate;
     repeat split; intros; try reflexivity; try discriminate;
     try lia; try tauto; try intuition (try lia; try congruence)).
Qed.

Lemma buildParameter_marks (tokens : list string) :
  exists p, buildParameter tokens = Done (p, None) /\
            marks_at tokens (length tokens) p.
Proof.
  apply buildParameter_invariant.
  - unfold marks_at, countMacro; simpl.
    repeat split; intros; try discriminate; try lia; reflexivity.
  - intros i raw p p'; apply marks_preserved.
Qed.

Lemma countMacro_skipn_pos (m : string) (tokens : list string) (i : nat)
  (raw : string) :
  nth_error tokens i = Some raw -> trimLeftDots raw = m ->
  1 <= countMacro m (skipn i tokens).
Proof.
  intros Hnth Hraw.
  destruct (nth_error_skipn_cons _ _ Hnth) as (rest & ->).
  unfold countMacro; simpl.
  apply String.eqb_eq in Hraw; rewrite Hraw; simpl; lia.
Qed.

Lemma buildParameter_depth_exact (n : nat) :
  forall tokens p e,
    length tokens <= n ->
    buildParameter tokens = Done (p, e) ->
    depth p = countMacro "Op" tokens - 1.
Proof.
  induction n as [|n IH]; intros tokens p e Hlen Hp.
  - destruct tokens; [| simpl in Hlen; lia].
    injection Hp as <- _; reflexivity.
  - destruct (@buildParameter_invariant tokens
      (fun i q =>
         marks_at tokens i q /\
         (countMacro "Op" (firstn i tokens) < 2 -> parameter q = None) /\
         (2 <= countMacro "Op" (firstn i tokens) ->
          depth q = countMacro "Op" tokens - 1)))
      as (p' & Hp' & Hmarks & Hnone & Hsome).
    + split; [| split]; [| reflexivity | unfold countMacro; simpl; lia].
      unfold marks_at, countMacro; simpl.
      repeat split; intros; try discriminate; try lia; reflexivity.
    + intros i raw q q' Hnth (Hmarks & Hnone & Hsome) Hmv.
      split; [eapply marks_preserved; eauto |].
      assert (Hi : i < length tokens)
        by (apply nth_error_Some; rewrite Hnth; discriminate).
      rewrite (firstn_S_nth_error _ _ Hnth), countMacro_snoc.
      destruct Hmarks as (HOp & _ & _ & Hpar & _).
      destruct Hmv as [H1 H2 H3 | H1 H2 | tp e' H1 H2 H3 H4 H5 | H1 H2 H3
                      | H1 H2 | H1 H2 | H1 H2 | H1 H2];
        try (apply String.eqb_neq in H1; rewrite H1);
        try (rewrite H1); simpl; rewrite ?Nat.add_0_r;
        try (split; assumption);
        try (split; [intros Hc; destruct q; apply Hnone; lia
                    | intros Hc; destruct q; apply Hsome; lia]).
      * (* the first Op: one seen, nothing nested *)
        assert (countMacro "Op" (firstn i tokens) = 0).
        { destruct (countMacro "Op" (firstn i tokens)); [reflexivity |].
          assert (optional q = true) by (apply HOp; lia). congruence. }
        split; [intros _; destruct q; apply Hnone; lia | lia].
      * (* the second Op: the nested node is built from here on *)
        assert (Hone : countMacro "Op" (firstn i tokens) = 1).
        { assert (1 <= countMacro "Op" (firstn i tokens)) by (apply HOp; assumption).
          destruct (Nat.le_gt_cases 2 (countMacro "Op" (firstn i tokens)))
            as [Hge | Hlt]; [| lia].
          apply Hpar in Hge; congruence. }
        split; [lia | intros _].
        apply IH in H5; [| rewrite length_skipn; lia].
        pose proof (countMacro_skipn_pos tokens i Hnth H1) as Hpos.
        rewrite (countMacro_split "Op" tokens i), Hone, H5. lia.
      * (* a later Op changes nothing *)
        assert (2 <= countMacro "Op" (firstn i tokens)) by (apply Hpar; assumption).
        split; [lia | intros _; apply Hsome; assumption].
    + rewrite Hp in Hp'; injection Hp' as -> _.
      rewrite firstn_all in Hnone, Hsome.
      destruct (Nat.le_gt_cases 2 (countMacro "Op" tokens)) as [Hge | Hlt].
      * apply Hsome; exact Hge.
      * rewrite (depth_no_nested _ (Hnone Hlt)). lia.
Qed.

(** X1.  The marks of the parameter a token list builds say which macros
    the list holds, leading dots apart: [optional] is set exactly when
    there is an [Op], [hasargument] when there is an [Ar], [hasflags] when
    there is an [Fl], and [hasparameter] when there are two [Op] or more;
    [nospace] and [name] are never set, and a mark that is not set leaves
    its string empty. *)
Theorem marks_reflect_macros (tokens : list string) :
  exists p,
    buildParameter tokens = Done (p, None) /\
    (optional p = true <-> 1 <= countMacro "Op" tokens) /\
    (hasargument p = true <-> 1 <= countMacro "Ar" tokens) /\
    (hasflags p = true <-> 1 <= countMacro "Fl" tokens) /\
    (hasparameter p = true <-> 2 <= countMacro "Op" tokens) /\
    nospace p = false /\ pname p = "" /\
    (hasargument p = false -> argument p = "") /\
    (hasflags p = false -> flags p = "").
Proof.
  destruct (buildParameter_marks tokens) as (p & Hp & Hmarks).
  unfold marks_at in Hmarks; rewrite firstn_all in Hmarks.
  exists p; split; [exact Hp | exact Hmarks].
Qed.

(** X2.  The chain of nested parameters has one node per [Op] token: below
    the top node there are as many nested nodes as there are [Op] tokens
    after the first. *)
Theorem nested_chain_counts_Op (tokens : list string) :
  exists p,
    buildParameter tokens = Done (p, None) /\
    depth p = countMacro "Op" tokens - 1.
Proof.
  destruct (buildParameter_total tokens) as (p & Hp).
  exists p; split; [exact Hp |].
  eapply buildParameter_depth_exact; [apply Nat.le_refl | exact Hp].
Qed.

(** ** What the assemblers keep *)

Lemma existsb_isGrammarMacro (tokens : list string) :
  existsb isGrammarMacro tokens = true <->
  (1 <= countMacro "Op" tokens \/ 1 <= countMacro "Ar" tokens \/
   1 <= countMacro "Fl" tokens).
Proof.
  unfold countMacro.
  induction tokens as [|raw tokens IH]; simpl.
  - split; [discriminate | lia].
  - unfold isGrammarMacro at 1.
    destruct (trimLeftDots raw =? "Op")%string,
             (trimLeftDots raw =? "Ar")%string,
             (trimLeftDots raw =? "Fl")%string; simpl;
      try (split; [intros _ | reflexivity]; lia).
    exact IH.
Qed.

Lemma valid_iff_macro (tokens : list string) (p : Param) (e : error) :
  buildParameter tokens = Done (p, e) ->
  isValidParameter p = existsb isGrammarMacro tokens.
Proof.
  destruct (buildParameter_marks tokens) as (q & -> & Hmarks).
  unfold marks_at in Hmarks; rewrite firstn_all in Hmarks.
  destruct Hmarks as (HOp & HAr & HFl & Hpar & Hnsp & _).
  intros [= <- _]. apply Bool.eq_true_iff_eq.
  rewrite existsb_isGrammarMacro. unfold isValidParameter.
  rewrite !Bool.orb_true_iff, HOp, HAr, HFl, Hpar, Hnsp.
  split; intros H; intuition (try lia; try discriminate).
Qed.

Lemma Forall2_filter (A B : Type) (R : A -> B -> Prop) (f : A -> bool)
  (g : B -> bool) (l : list A) (l' : list B) :
  (forall a b, R a b -> f a = g b) ->
  Forall2 R l l' -> Forall2 R (filter f l) (filter g l').
Proof.
  intros Hfg; induction 1 as [|a b l l' Hab _ IH]; simpl; [constructor |].
  rewrite (Hfg a b Hab). destruct (g b); [constructor |]; assumption.
Qed.

Lemma filter_nonempty_existsb (A : Type) (f : A -> bool) (l : list A) :
  (0 <? length (filter f l)) = existsb f l.
Proof.
  induction l as [|a l IH]; simpl; [reflexivity |].
  destruct (f a); simpl; [reflexivity | exact IH].
Qed.

Lemma buildSyntax_kept (lines : list string) :
  exists syn, buildSyntax lines = Done (syn, None) /\
              Forall2 built_from (filter hasGrammarMacro lines) (parameters syn).
Proof.
  destruct (buildSyntax_spec lines) as (ps & Hall & Hrun).
  eexists; split; [exact Hrun | simpl].
  apply Forall2_filter; [| exact Hall].
  intros line p Hbuilt; unfold hasGrammarMacro.
  symmetry; eapply valid_iff_macro; exact Hbuilt.
Qed.

Lemma isValidSyntax_iff_macro (lineset : list string) (syn : Syntax) :
  assembled_from lineset syn ->
  existsb hasGrammarMacro lineset = isValidSyntax syn.
Proof.
  unfold assembled_from; intros Hsyn.
  destruct (buildSyntax_kept lineset) as (syn' & Hrun & Hkept).
  rewrite Hrun in Hsyn; injection Hsyn as <-.
  unfold isValidSyntax.
  rewrite <- (Forall2_length Hkept). symmetry; apply filter_nonempty_existsb.
Qed.

(** X3.  [buildSyntax] never fails, and the parameters it returns are, in
    order, what [buildParameter] builds from the lines of the group that
    hold an [Op], [Ar] or [Fl] token; the other lines leave nothing. *)
Theorem buildSyntax_keeps_macro_lines (lines : list string) :
  exists syn,
    buildSyntax lines = Done (syn, None) /\
    Forall2 built_from (filter hasGrammarMacro lines) (parameters syn) /\
    length (parameters syn) = length (filter hasGrammarMacro lines).
Proof.
  destruct (buildSyntax_kept lines) as (syn & Hrun & Hkept).
  exists syn; split; [exact Hrun | split; [exact Hkept |]].
  symmetry; apply (Forall2_length Hkept).
Qed.

Lemma buildCommand_kept (nm : string) (paramLines : list (list string)) :
  exists cmd err,
    buildCommand nm paramLines = Done (cmd, err) /\
    name cmd = nm /\
    Forall2 assembled_from
            (filter (existsb hasGrammarMacro) paramLines) (syntaxes cmd) /\
    Forall (fun syn => parameters syn <> []) (syntaxes cmd) /\
    (err = None <-> existsb (existsb hasGrammarMacro) paramLines = true).
Proof.
  destruct (buildCommand_spec nm paramLines) as (syns & Hall & Hrun).
  assert (Hkept : Forall2 assembled_from
                    (filter (existsb hasGrammarMacro) paramLines)
                    (filter isValidSyntax syns)).
  { apply Forall2_filter; [| exact Hall].
    intros g syn; apply isValidSyntax_iff_macro. }
  do 2 eexists; split; [exact Hrun |]; simpl.
  split; [reflexivity | split; [exact Hkept | split]].
  - apply Forall_forall; intros syn Hin.
    apply filter_In in Hin; destruct Hin as (_ & Hvalid).
    unfold isValidSyntax in Hvalid.
    destruct (parameters syn); [discriminate | discriminate].
  - rewrite <- (filter_nonempty_existsb (existsb hasGrammarMacro) paramLines).
    rewrite (Forall2_length Hkept).
    destruct (filter isValidSyntax syns); simpl; unfold noSyntaxesFound;
      split; try discriminate; reflexivity.
Qed.

(** X4.  [buildCommand] keeps, in order, one syntax for each group that
    has a line with an [Op], [Ar] or [Fl] token, and none for the others;
    every syntax of the command has a parameter, the name is the one it
    was given, and the error is [nil] exactly when some group has such a
    line. *)
Theorem buildCommand_keeps_macro_groups (nm : string)
  (paramLines : list (list string)) :
  exists cmd err,
    buildCommand nm paramLines = Done (cmd, err) /\
    name cmd = nm /\
    Forall2 assembled_from
            (filter (existsb hasGrammarMacro) paramLines) (syntaxes cmd) /\
    Forall (fun syn => parameters syn <> []) (syntaxes cmd) /\
    (err = None <-> existsb (existsb hasGrammarMacro) paramLines = true).
Proof. apply buildCommand_kept. Qed.

(** * Further properties of the extractor *)

Lemma appendToLast_snoc (init : list (list string)) (last : list string)
  (line : string) :
  appendToLast (init ++ [last]) line = init ++ [last ++ [line]].
Proof.
  induction init as [|g init IH]; [reflexivity |].
  simpl. rewrite IH. destruct (init ++ [last]) eqn:E; [| reflexivity].
  destruct init; discriminate.
Qed.

Lemma setNth_snoc (A : Type) (init : list A) (last v : A) :
  setNth (init ++ [last]) (length init) v = init ++ [v].
Proof. induction init as [|a init IH]; simpl; [| rewrite IH]; reflexivity. Qed.

Lemma nth_error_snoc (A : Type) (init : list A) (last : A) :
  nth_error (init ++ [last]) (length init) = Some last.
Proof. induction init as [|a init IH]; simpl; [reflexivity | exact IH]. Qed.

Lemma append_to_group (init : list (list string)) (last : list string)
  (line : string) :
  let synopsis := init ++ [last] in
  let usagePattern := (Z.of_nat (length synopsis) - 1)%Z in
  indexZ synopsis usagePattern = Done last /\
  assignZ synopsis usagePattern (last ++ [line]) = Done (init ++ [last ++ [line]]).
Proof.
  intros synopsis up.
  assert (Hlen : length synopsis = S (length init))
    by (unfold synopsis; rewrite length_app; simpl; lia).
  assert (Hup : Z.to_nat up = length init) by (unfold up; lia).
  unfold indexZ, assignZ.
  destruct (Z.ltb_spec up 0) as [Hneg | _]; [unfold up in Hneg; lia |].
  rewrite Hup. unfold index, synopsis; rewrite nth_error_snoc.
  split; [reflexivity |].
  fold synopsis; rewrite Hlen.
  destruct (Nat.ltb_spec (length init) (S (length init))); [| lia].
  unfold synopsis; rewrite setNth_snoc; reflexivity.
Qed.

(** The body of the loop on a compliant line of the section, for any
    continuation [k]. *)
Lemma extractor_adds_line (A : Type) (groups : list (list string))
  (usagePattern : Z) (line : string)
  (k : list (list string) -> Z -> outcome A) :
  usagePattern = (Z.of_nat (length groups) - 1)%Z ->
  (let '(synopsis, usagePattern) :=
     if isNameLine line || (usagePattern =? -1)%Z
     then (groups ++ [[]], (usagePattern + 1)%Z)
     else (groups, usagePattern) in
   group <- indexZ synopsis usagePattern ;;
   synopsis <- assignZ synopsis usagePattern (group ++ [line]) ;;
   k synopsis usagePattern)
  = k (addLine groups line)
      (Z.of_nat (length (addLine groups line)) - 1)%Z.
Proof.
  intros Hup. unfold addLine.
  assert (Hempty : (usagePattern =? -1)%Z = (length groups =? 0)).
  { destruct (Z.eqb_spec usagePattern (-1)), (Nat.eqb_spec (length groups) 0);
      try reflexivity; lia. }
  rewrite Hempty.
  destruct (isNameLine line || (length groups =? 0)) eqn:Hnew.
  - destruct (append_to_group groups [] line) as (Hget & Hset).
    cbv zeta in Hget, Hset.
    replace (usagePattern + 1)%Z
      with (Z.of_nat (length (groups ++ [[]])) - 1)%Z
      by (rewrite length_app; simpl; lia).
    rewrite Hget; cbn [bind]; rewrite Hset; cbn [bind app].
    rewrite !length_app; reflexivity.
  - apply Bool.orb_false_elim in Hnew; destruct Hnew as (_ & Hnew).
    apply Nat.eqb_neq in Hnew.
    destruct (exists_last (l := groups)) as (init & last & ->);
      [intros ->; apply Hnew; reflexivity |].
    destruct (append_to_group init last line) as (Hget & Hset).
    cbv zeta in Hget, Hset. subst usagePattern.
    rewrite Hget; cbn [bind]; rewrite Hset; cbn [bind].
    rewrite appendToLast_snoc, !length_app; reflexivity.
Qed.

Lemma extractor_heading (i : nat) (line : string) (rest : list string)
  (start : nat) (groups : list (list string)) (usagePattern : Z) :
  isSynopsisLine line = true ->
  getSynopsisLines_loop i (line :: rest) start groups usagePattern =
  getSynopsisLines_loop (S i) rest i groups usagePattern.
Proof. intros H; cbn [getSynopsisLines_loop]; rewrite H; reflexivity. Qed.

Lemma extractor_unstarted (i : nat) (line : string) (rest : list string)
  (groups : list (list string)) (usagePattern : Z) :
  isSynopsisLine line = false ->
  getSynopsisLines_loop i (line :: rest) 0 groups usagePattern =
  getSynopsisLines_loop (S i) rest 0 groups usagePattern.
Proof. intros H; cbn [getSynopsisLines_loop]; rewrite H; reflexivity. Qed.

Lemma extractor_stop (i : nat) (line : string) (rest : list string)
  (start : nat) (groups : list (list string)) (usagePattern : Z) :
  start <> 0 -> ends_section line ->
  getSynopsisLines_loop i (line :: rest) start groups usagePattern =
  Done groups.
Proof.
  intros Hstart (Hsyn & Hsh); cbn [getSynopsisLines_loop]; rewrite Hsyn.
  apply Nat.eqb_neq in Hstart; rewrite Hstart; cbn [negb].
  destruct Hsh as [-> | ->]; [reflexivity |].
  rewrite Bool.orb_true_r; reflexivity.
Qed.

Lemma extractor_inside (i : nat) (line : string) (rest : list string)
  (start : nat) (groups : list (list string)) (usagePattern : Z) :
  start <> 0 -> inside_section line ->
  usagePattern = (Z.of_nat (length groups) - 1)%Z ->
  getSynopsisLines_loop i (line :: rest) start groups usagePattern =
  getSynopsisLines_loop (S i) rest start (addLines groups [line])
    (Z.of_nat (length (addLines groups [line])) - 1)%Z.
Proof.
  intros Hstart (Hsyn & Hsh & HSH) Hup; cbn [getSynopsisLines_loop].
  rewrite Hsyn, Hsh, HSH.
  apply Nat.eqb_neq in Hstart; rewrite Hstart; cbn [negb orb].
  unfold addLines; cbn [fold_left].
  destruct (compliantLine line).
  - apply (@extractor_adds_line _ groups usagePattern line
             (fun synopsis usagePattern =>
                getSynopsisLines_loop (S i) rest start synopsis usagePattern)
             Hup).
  - rewrite Hup; reflexivity.
Qed.


(** The loop over lines inside the section. *)
Lemma extractor_body (body : list string) :
  forall i rest start groups usagePattern,
    start <> 0 -> Forall inside_section body ->
    usagePattern = (Z.of_nat (length groups) - 1)%Z ->
    getSynopsisLines_loop i (body ++ rest) start groups usagePattern =
    getSynopsisLines_loop (i + length body) rest start (addLines groups body)
      (Z.of_nat (length (addLines groups body)) - 1)%Z.
Proof.
  induction body as [|line body IH]; intros i rest start groups up Hstart Hbody Hup.
  - simpl; rewrite Nat.add_0_r, Hup; reflexivity.
  - inversion Hbody as [|? ? Hline Hrest]; subst.
    simpl app. rewrite extractor_inside by (try assumption; reflexivity).
    rewrite IH by (try assumption; reflexivity).
    replace (S i + length body) with (i + length (line :: body)) by (simpl; lia).
    reflexivity.
Qed.

(** The loop over lines before any heading. *)
Lemma extractor_preamble (pre : list string) :
  forall i rest groups usagePattern,
    Forall (fun line => isSynopsisLine line = false) pre ->
    getSynopsisLines_loop i (pre ++ rest) 0 groups usagePattern =
    getSynopsisLines_loop (i + length pre) rest 0 groups usagePattern.
Proof.
  induction pre as [|line pre IH]; intros i rest groups up Hpre.
  - simpl; rewrite Nat.add_0_r; reflexivity.
  - inversion Hpre as [|? ? Hline Hrest]; subst.
    simpl app. rewrite extractor_unstarted by assumption.
    rewrite IH by assumption.
    replace (S i + length pre) with (i + length (line :: pre)) by (simpl; lia).
    reflexivity.
Qed.

(** From index [1] on, the loop depends on its index and on [start] only
    through whether [start] is [0]. *)
Lemma extractor_index_irrelevant (rest : list string) :
  forall i i' start start' groups usagePattern,
    1 <= i -> 1 <= i' -> (start = 0 <-> start' = 0) ->
    getSynopsisLines_loop i rest start groups usagePattern =
    getSynopsisLines_loop i' rest start' groups usagePattern.
Proof.
  induction rest as [|line rest IH];
    intros i i' start start' groups up Hi Hi' Hstart; [reflexivity |].
  cbn [getSynopsisLines_loop].
  destruct (isSynopsisLine line); [apply IH; lia |].
  assert (Hsame : (start =? 0) = (start' =? 0)).
  { destruct (Nat.eqb_spec start 0), (Nat.eqb_spec start' 0);
      try reflexivity; tauto. }
  rewrite Hsame.
  destruct (negb (start' =? 0)); [| apply IH; lia].
  destruct (negb _); [| reflexivity].
  destruct (compliantLine line); [| apply IH; lia].
  destruct (isNameLine line || (up =? -1)%Z);
    (destruct (indexZ _ _); cbn [bind]; try reflexivity;
     destruct (assignZ _ _ _); cbn [bind]; try reflexivity; apply IH; lia).
Qed.

(** The invariant rule for the loop of the extractor: what holds of the
    groups at the start and is kept by [addLine] on the compliant lines
    inside a section holds of the result, and the loop returns. *)
Lemma extractor_invariant (P : list (list string) -> Prop)
  (all : list string) :
  (forall groups line,
      P groups -> In line all -> compliantLine line = true ->
      inside_section line -> P (addLine groups line)) ->
  forall rest i start groups usagePattern,
    incl rest all ->
    usagePattern = (Z.of_nat (length groups) - 1)%Z ->
    P groups ->
    exists groups',
      getSynopsisLines_loop i rest start groups usagePattern = Done groups' /\
      P groups'.
Proof.
  intros Hpres rest; induction rest as [|line rest IH];
    intros i start groups up Hincl Hup HP.
  - exists groups; split; [reflexivity | exact HP].
  - assert (Hin : In line all) by (apply Hincl; left; reflexivity).
    assert (Hincl' : incl rest all)
      by (intros l Hl; apply Hincl; right; exact Hl).
    destruct (isSynopsisLine line) eqn:Hsyn.
    { rewrite extractor_heading by exact Hsyn. apply IH; assumption. }
    destruct (Nat.eq_dec start 0) as [-> | Hstart].
    { rewrite extractor_unstarted by exact Hsyn. apply IH; assumption. }
    destruct (hasPrefix line ".Sh") eqn:Hsh.
    { rewrite extractor_stop; [eauto | exact Hstart |].
      split; [exact Hsyn | left; exact Hsh]. }
    destruct (hasPrefix line ".SH") eqn:HSH.
    { rewrite extractor_stop; [eauto | exact Hstart |].
      split; [exact Hsyn | right; exact HSH]. }
    assert (Hinside : inside_section line) by (repeat split; assumption).
    rewrite extractor_inside by assumption.
    apply IH; [exact Hincl' | reflexivity |].
    unfold addLines; cbn [fold_left].
    destruct (compliantLine line) eqn:Hcomp; [| exact HP].
    apply Hpres; assumption.
Qed.

Lemma tl_app_nonempty (A : Type) (l l' : list A) :
  l <> [] -> tl (l ++ l') = tl l ++ l'.
Proof. destruct l; [congruence | reflexivity]. Qed.

Lemma single_group_well_formed (all : list string) (line : string) :
  In line all -> compliantLine line = true -> inside_section line ->
  well_formed_group all [line].
Proof.
  intros Hin Hcomp Hinside; split; [discriminate | split].
  - constructor; [tauto | constructor].
  - constructor.
Qed.

Lemma addLine_well_formed (all : list string) (groups : list (list string))
  (line : string) :
  well_formed_groups all groups -> In line all ->
  compliantLine line = true -> inside_section line ->
  well_formed_groups all (addLine groups line).
Proof.
  intros (Hgroups & Hheads) Hin Hcomp Hinside. unfold addLine.
  pose proof (@single_group_well_formed all line Hin Hcomp Hinside) as Hsingle.
  destruct (isNameLine line) eqn:Hname; cbn [orb].
  - split.
    + apply Forall_app; split; [exact Hgroups |].
      constructor; [exact Hsingle | constructor].
    + destruct groups as [|g groups]; [constructor |].
      simpl tl in *. apply Forall_app; split; [exact Hheads |].
      constructor; [exact Hname | constructor].
  - destruct (Nat.eqb_spec (length groups) 0) as [Hlen | Hlen].
    + destruct groups; [| discriminate].
      split; [| constructor].
      constructor; [exact Hsingle | constructor].
    + destruct (exists_last (l := groups)) as (init & last & ->);
        [intros ->; apply Hlen; reflexivity |].
      rewrite appendToLast_snoc.
      apply Forall_app in Hgroups; destruct Hgroups as (Hinit & Hlast).
      inversion Hlast as [|? ? (Hne & Hlines & Htail) _]; subst.
      split.
      * apply Forall_app; split; [exact Hinit |].
        constructor; [| constructor].
        split; [destruct last; discriminate | split].
        -- apply Forall_app; split; [exact Hlines |].
           constructor; [tauto | constructor].
        -- rewrite tl_app_nonempty by exact Hne.
           apply Forall_app; split; [exact Htail |].
           constructor; [exact Hname | constructor].
      * destruct init as [|g init].
        -- constructor.
        -- simpl tl in *.
           apply Forall_app in Hheads; destruct Hheads as (Hh1 & Hh2).
           apply Forall_app; split; [exact Hh1 |].
           inversion Hh2 as [|? ? Hhead _]; subst.
           constructor; [| constructor].
           destruct last; [destruct Hhead | exact Hhead].
Qed.

Lemma concat_addLine (groups : list (list string)) (line : string) :
  concat (addLine groups line) = concat groups ++ [line].
Proof.
  unfold addLine.
  destruct (isNameLine line || (length groups =? 0)) eqn:Hnew.
  - rewrite concat_app; reflexivity.
  - apply Bool.orb_false_elim in Hnew; destruct Hnew as (_ & Hnew).
    apply Nat.eqb_neq in Hnew.
    destruct (exists_last (l := groups)) as (init & last & ->);
      [intros ->; apply Hnew; reflexivity |].
    rewrite appendToLast_snoc, !concat_app; simpl.
    rewrite !app_nil_r, app_assoc; reflexivity.
Qed.

Lemma concat_addLines (body : list string) :
  forall groups,
    concat (addLines groups body) = concat groups ++ filter compliantLine body.
Proof.
  induction body as [|line body IH]; intros groups; simpl.
  - rewrite app_nil_r; reflexivity.
  - change (addLines groups (line :: body))
      with (addLines (if compliantLine line then addLine groups line else groups)
                     body).
    rewrite IH. destruct (compliantLine line); [| reflexivity].
    rewrite concat_addLine, <- app_assoc; reflexivity.
Qed.

(** X5.  Whatever the input, the extractor returns, and each group it
    returns is not empty, holds only compliant lines of the input that
    are neither synopsis headings nor lines starting with [.Sh] or [.SH],
    has no line starting with [.Nm] after its first, and, the first group
    apart, starts with a line starting with [.Nm]. *)
Theorem groups_are_well_formed (lines : list string) :
  exists groups,
    getSynopsisLines lines = Done groups /\
    Forall (well_formed_group lines) groups /\
    Forall starts_with_name (tl groups).
Proof.
  destruct (@extractor_invariant (well_formed_groups lines) lines)
    with (rest := lines) (i := 0) (start := 0) (groups := @nil (list string))
         (usagePattern := (-1)%Z)
    as (groups & Hrun & Hgroups & Hheads).
  - intros groups line; apply addLine_well_formed.
  - apply incl_refl.
  - reflexivity.
  - split; constructor.
  - exists groups; repeat split; assumption.
Qed.

(** X6.  Without a synopsis heading there is no group. *)
Theorem no_heading_no_groups (lines : list string) :
  Forall (fun line => isSynopsisLine line = false) lines ->
  getSynopsisLines lines = Done [].
Proof.
  intros Hlines; apply getSynopsisLines_loop_unstarted; exact Hlines.
Qed.

Lemma no_heading_no_groups_witness :
  getSynopsisLines [".Dd May 1"; ".Sh NAME"; ".Nm foo"; ".Op Fl x"] = Done [].
Proof.
  apply no_heading_no_groups.
  constructor; [reflexivity |]. constructor; [reflexivity |].
  constructor; [reflexivity |]. constructor; [reflexivity | constructor].
Defined.

(** X7.  The lines before the first heading do not matter, as long as
    there is one: two inputs that differ only in a non-empty, heading-free
    preamble give the same groups. *)
Theorem preamble_is_ignored (pre1 pre2 rest : list string) :
  pre1 <> [] -> pre2 <> [] ->
  Forall (fun line => isSynopsisLine line = false) pre1 ->
  Forall (fun line => isSynopsisLine line = false) pre2 ->
  getSynopsisLines (pre1 ++ rest) = getSynopsisLines (pre2 ++ rest).
Proof.
  intros Hne1 Hne2 Hpre1 Hpre2; unfold getSynopsisLines.
  rewrite !extractor_preamble by assumption.
  apply extractor_index_irrelevant; [| | tauto].
  - destruct pre1; [congruence | simpl; lia].
  - destruct pre2; [congruence | simpl; lia].
Qed.

Lemma preamble_is_ignored_witness :
  getSynopsisLines ([".Dd May 1"] ++ [".Sh SYNOPSIS"; ".Nm foo"; ".Op Fl x"]) =
  getSynopsisLines ([".Dd"; ".Dt FOO 1"; ".Nm foo"]
                      ++ [".Sh SYNOPSIS"; ".Nm foo"; ".Op Fl x"]).
Proof.
  apply preamble_is_ignored; try discriminate.
  - constructor; [reflexivity | constructor].
  - constructor; [reflexivity |]. constructor; [reflexivity |].
    constructor; [reflexivity | constructor].
Defined.

(** X8.  With at least one line before the heading, the groups are built
    from the lines between the heading and the first later line that
    starts with [.Sh] or [.SH], and from nothing else: put end to end,
    the groups are the compliant lines of that stretch, in order; what
    comes after the closing line changes nothing, and neither does the
    absence of a closing line. *)
Theorem section_is_collected (pre : list string) (heading : string)
  (body : list string) (stop : string) (post : list string) :
  pre <> [] ->
  Forall (fun line => isSynopsisLine line = false) pre ->
  isSynopsisLine heading = true ->
  Forall inside_section body ->
  ends_section stop ->
  exists groups,
    getSynopsisLines (pre ++ heading :: body ++ stop :: post) = Done groups /\
    getSynopsisLines (pre ++ heading :: body) = Done groups /\
    concat groups = filter compliantLine body /\
    groups = addLines [] body.
Proof.
  intros Hne Hpre Hheading Hbody Hstop.
  assert (Hstart : 0 + length pre <> 0) by (destruct pre; [congruence | simpl; lia]).
  exists (addLines [] body); split; [| split; [| split]].
  - unfold getSynopsisLines.
    rewrite extractor_preamble, extractor_heading by assumption.
    rewrite extractor_body by (try assumption; reflexivity).
    apply extractor_stop; assumption.
  - unfold getSynopsisLines.
    rewrite extractor_preamble, extractor_heading by assumption.
    rewrite <- (app_nil_r body) at 1.
    rewrite extractor_body by (try assumption; reflexivity).
    reflexivity.
  - apply (concat_addLines body []).
  - reflexivity.
Qed.

Lemma section_is_collected_witness :
  exists groups,
    getSynopsisLines
      ([".Dd May 1"] ++ ".Sh SYNOPSIS"
         :: [".Nm foo"; ".Op Fl x"; "plain"; ".Nm foo"; ".Ar file"]
         ++ ".Sh DESCRIPTION" :: [".Nm bar"; ".Op Fl y"]) = Done groups /\
    getSynopsisLines
      ([".Dd May 1"] ++ ".Sh SYNOPSIS"
         :: [".Nm foo"; ".Op Fl x"; "plain"; ".Nm foo"; ".Ar file"])
    = Done groups /\
    concat groups =
    filter compliantLine [".Nm foo"; ".Op Fl x"; "plain"; ".Nm foo"; ".Ar file"] /\
    groups = addLines [] [".Nm foo"; ".Op Fl x"; "plain"; ".Nm foo"; ".Ar file"].
Proof.
  apply section_is_collected.
  - discriminate.
  - constructor; [reflexivity | constructor].
  - reflexivity.
  - unfold inside_section.
    constructor; [tauto |]. constructor; [tauto |]. constructor; [tauto |].
    constructor; [tauto |]. constructor; [tauto | constructor].
  - split; [reflexivity | left; reflexivity].
Defined.












(** * Further properties of the resolver and of the pipeline *)

Lemma getDefinedName_result (lines : list string) :
  forall nm,
    getDefinedName lines = Done nm ->
    allLower nm = true /\
    (nm <> "" -> In (".Nm " ++ nm)%string lines) /\
    (nm = "" <-> forall l w, In l lines -> ~ defines_name l w).
Proof.
  induction lines as [|line lines IH]; intros nm.
  - intros [= <-]; split; [reflexivity | split; [congruence |]].
    split; [intros _ l w [] | reflexivity].
  - destruct (findDefinedName_cases line) as [Hnone | (word & Hdef)].
    + assert (Hnot : forall w, ~ defines_name line w).
      { intros w Hdef. rewrite (findDefinedName_defines Hdef) in Hnone.
        discriminate. }
      rewrite getDefinedName_skip by exact Hnot.
      intros Hrun; destruct (IH nm Hrun) as (Hlower & Hin & Hempty).
      split; [exact Hlower | split].
      * intros Hne; right; apply Hin; exact Hne.
      * rewrite Hempty; split.
        -- intros H l w [<- | Hl]; [apply Hnot | apply H; exact Hl].
        -- intros H l w Hl; apply H; right; exact Hl.
    + rewrite (getDefinedName_here lines Hdef). intros [= <-].
      destruct Hdef as (Hline & Hne & Hlower).
      split; [exact Hlower | split].
      * intros _; left; exact Hline.
      * split; [congruence |].
        intros H; destruct (H line word); [left; reflexivity |].
        repeat split; assumption.
Qed.

(** X10.  What the resolver returns is made of the letters [a] to [z]
    only; when it is not empty, the line [.Nm], a space and that word is a
    line of the document; and it is empty exactly when no line of the
    document is [.Nm], a space and a lowercase word. *)
Theorem resolved_name_comes_from_document (lines : list string) (nm : string) :
  getDefinedName lines = Done nm ->
  allLower nm = true /\
  (nm <> "" -> In (".Nm " ++ nm)%string lines) /\
  (nm = "" <-> forall l w, In l lines -> ~ defines_name l w).
Proof. apply getDefinedName_result. Qed.

Lemma resolved_name_comes_from_document_witness :
  allLower "grep" = true /\
  ("grep" <> "" ->
   In (".Nm " ++ "grep")%string [".Sh NAME"; ".Nm Grep"; ".Nm grep"; ".Nm egrep"]) /\
  ("grep" = "" <->
   forall l w, In l [".Sh NAME"; ".Nm Grep"; ".Nm grep"; ".Nm egrep"] ->
               ~ defines_name l w).
Proof.
  apply (@resolved_name_comes_from_document
           [".Sh NAME"; ".Nm Grep"; ".Nm grep"; ".Nm egrep"] "grep").
  reflexivity.
Defined.

Lemma existsb_concat (A : Type) (f : A -> bool) (ls : list (list A)) :
  existsb (existsb f) ls = existsb f (concat ls).
Proof.
  induction ls as [|l ls IH]; simpl; [reflexivity |].
  rewrite existsb_app, IH; reflexivity.
Qed.

Lemma existsb_filter (A : Type) (f g : A -> bool) (l : list A) :
  existsb f (filter g l) = existsb (fun x => g x && f x) l.
Proof.
  induction l as [|x l IH]; simpl; [reflexivity |].
  destruct (g x); simpl; rewrite IH; reflexivity.
Qed.

(** X11.  The pipeline returns on every document: no index of the
    extractor, of the resolver or of the builder goes out of range.  The
    command it returns has the resolver's name and one syntax for each
    group with a line that has an [Op], [Ar] or [Fl] token, and the error
    is [nil] when there is such a group and ["No syntaxes found"]
    otherwise. *)
Theorem pipeline_returns (rawlines : list string) :
  exists groups nm cmd err,
    getSynopsisLines rawlines = Done groups /\
    getDefinedName rawlines = Done nm /\
    manfileToCommand rawlines = Done (cmd, err) /\
    name cmd = nm /\
    length (syntaxes cmd) =
    length (filter (existsb hasGrammarMacro) groups) /\
    (existsb (existsb hasGrammarMacro) groups = true -> err = None) /\
    (existsb (existsb hasGrammarMacro) groups = false ->
     err = Some "No syntaxes found").
Proof.
  destruct (getSynopsisLines_total rawlines) as (groups & Hgroups).
  destruct (getDefinedName_total rawlines) as (nm & Hnm).
  destruct (buildCommand_kept nm groups)
    as (cmd & err & Hrun & Hname & Hkept & _ & Herr).
  exists groups, nm, cmd, err.
  split; [exact Hgroups | split; [exact Hnm | split; [| split; [exact Hname |]]]].
  - unfold manfileToCommand; rewrite Hgroups, Hnm; exact Hrun.
  - split; [symmetry; apply (Forall2_length Hkept) | split].
    + apply Herr.
    + intros Hnone.
      destruct (buildCommand_spec nm groups) as (syns & _ & Hrun').
      rewrite Hrun in Hrun'; injection Hrun' as _ ->.
      destruct (length (filter isValidSyntax syns) =? 0); [reflexivity |].
      rewrite (proj1 Herr eq_refl) in Hnone; discriminate.
Qed.

(** X12.  On a document with at least one line before the heading, the
    pipeline succeeds exactly when, between the heading and the line that
    closes the section, some compliant line has an [Op], [Ar] or [Fl]
    token. *)
Theorem pipeline_succeeds_iff (pre : list string) (heading : string)
  (body : list string) (stop : string) (post : list string) :
  pre <> [] ->
  Forall (fun line => isSynopsisLine line = false) pre ->
  isSynopsisLine heading = true ->
  Forall inside_section body ->
  ends_section stop ->
  exists cmd err,
    manfileToCommand (pre ++ heading :: body ++ stop :: post) = Done (cmd, err) /\
    (err = None <->
     existsb (fun line => compliantLine line && hasGrammarMacro line) body
     = true).
Proof.
  intros Hne Hpre Hheading Hbody Hstop.
  assert (Hstart : 0 + length pre <> 0) by (destruct pre; [congruence | simpl; lia]).
  assert (Hgroups :
            getSynopsisLines (pre ++ heading :: body ++ stop :: post)
            = Done (addLines [] body)).
  { unfold getSynopsisLines.
    rewrite extractor_preamble, extractor_heading by assumption.
    rewrite extractor_body by (try assumption; reflexivity).
    apply extractor_stop; assumption. }
  destruct (getDefinedName_total (pre ++ heading :: body ++ stop :: post))
    as (nm & Hnm).
  destruct (buildCommand_kept nm (addLines [] body))
    as (cmd & err & Hrun & _ & _ & _ & Herr).
  exists cmd, err; split.
  - unfold manfileToCommand; rewrite Hgroups, Hnm; exact Hrun.
  - rewrite Herr, existsb_concat, (concat_addLines body []).
    cbn [concat app]; rewrite existsb_filter; reflexivity.
Qed.

Lemma pipeline_succeeds_iff_witness :
  exists cmd err,
    manfileToCommand
      ([".Dd May 1"; ".Nm foo"] ++ ".Sh SYNOPSIS"
         :: [".Nm foo"; "Op Fl x"; ".Ar file"]
         ++ ".Sh DESCRIPTION" :: [".Op Fl y"]) = Done (cmd, err) /\
    (err = None <->
     existsb (fun line => compliantLine line && hasGrammarMacro line)
             [".Nm foo"; "Op Fl x"; ".Ar file"] = true).
Proof.
  apply pipeline_succeeds_iff.
  - discriminate.
  - constructor; [reflexivity |]. constructor; [reflexivity | constructor].
  - reflexivity.
  - unfold inside_section.
    constructor; [tauto |]. constructor; [tauto |].
    constructor; [tauto | constructor].
  - split; [reflexivity | left; reflexivity].
Defined.

(** * Properties of the rendering *)

Lemma string_app_empty (a b : string) :
  (a ++ b)%string = "" -> a = "" /\ b = "".
Proof. destruct a; simpl; [tauto | discriminate]. Qed.

Lemma splitLines_nonempty (s : string) : splitLines s <> [].
Proof.
  induction s as [|c s IH]; simpl; [discriminate |].
  destruct (Ascii.eqb c LF); [discriminate |].
  destruct (splitLines s); discriminate.
Qed.

Lemma splitLines_app_LF (a b : string) :
  splitLines (a ++ String LF b) = splitLines a ++ splitLines b.
Proof.
  induction a as [|c a IH]; [reflexivity |].
  cbn [append splitLines]. rewrite IH.
  destruct (Ascii.eqb c LF); [reflexivity |].
  pose proof (splitLines_nonempty a) as Hne.
  destruct (splitLines a); [congruence | reflexivity].
Qed.

Lemma splitLines_app (a b : string) :
  splitLines (a ++ newline ++ b) = splitLines a ++ splitLines b.
Proof. apply splitLines_app_LF. Qed.

Lemma string_app_assoc (a b c : string) :
  ((a ++ b) ++ c)%string = (a ++ b ++ c)%string.
Proof. induction a as [|x a IH]; simpl; [| rewrite IH]; reflexivity. Qed.

Lemma string_app_nil_r (a : string) : (a ++ "")%string = a.
Proof. induction a as [|x a IH]; simpl; [| rewrite IH]; reflexivity. Qed.

Section RenderingFacts.

Variable trimSpace : string -> string.

Lemma dashes_fold (lines : list string) :
  forall out,
    fold_left
      (fun out line =>
         if negb (trimSpace line =? "")%string
         then (out ++ "--" ++ line ++ newline)%string else out)
      lines out
    = (out ++
       fold_left
         (fun out line =>
            if negb (trimSpace line =? "")%string
            then (out ++ "--" ++ line ++ newline)%string else out)
         lines EmptyString)%string.
Proof.
  induction lines as [|line lines IH]; intros out; cbn [fold_left].
  - symmetry; apply string_app_nil_r.
  - destruct (negb (trimSpace line =? "")%string).
    + rewrite (IH (out ++ "--" ++ line ++ newline)%string).
      rewrite (IH ("" ++ "--" ++ line ++ newline)%string).
      rewrite string_app_assoc; reflexivity.
    + apply IH.
Qed.

Lemma prependDashes_app (a b : string) :
  prependDashes trimSpace (a ++ newline ++ b) =
  (prependDashes trimSpace a ++ prependDashes trimSpace b)%string.
Proof.
  unfold prependDashes.
  rewrite splitLines_app, fold_left_app, dashes_fold; reflexivity.
Qed.

End RenderingFacts.

Lemma splitLines_single (line : string) :
  (forall c, In c (list_ascii_of_string line) -> c <> LF) ->
  splitLines line = [line].
Proof.
  induction line as [|c line IH]; intros Hno; [reflexivity |].
  cbn [splitLines].
  destruct (Ascii.eqb_spec c LF) as [-> | _].
  - destruct (Hno LF); [left; reflexivity | reflexivity].
  - rewrite IH; [reflexivity |].
    intros d Hd; apply Hno; right; exact Hd.
Qed.

(** X13.  [prependDashes] works line by line: on two texts joined by a
    line feed it gives what it gives on the first followed by what it
    gives on the second, and on a single line it gives nothing when
    [TrimSpace] leaves the line empty and the line between ["--"] and a
    line feed otherwise.  This holds whatever [TrimSpace] computes. *)
Theorem prependDashes_line_by_line (trimSpace : string -> string) :
  (forall a b,
      prependDashes trimSpace (a ++ newline ++ b) =
      (prependDashes trimSpace a ++ prependDashes trimSpace b)%string) /\
  (forall line,
      (forall c, In c (list_ascii_of_string line) -> c <> LF) ->
      prependDashes trimSpace line =
      if (trimSpace line =? "")%string then EmptyString
      else ("--" ++ line ++ newline)%string).
Proof.
  split; [apply prependDashes_app |].
  intros line Hno; unfold prependDashes.
  rewrite (splitLines_single line Hno); cbn [fold_left].
  destruct (trimSpace line =? "")%string; reflexivity.
Qed.

Lemma prependDashes_line_by_line_witness :
  prependDashes trimAsciiSpace "--optional" =
  if (trimAsciiSpace "--optional" =? "")%string then EmptyString
  else ("--" ++ "--optional" ++ newline)%string.
Proof.
  apply (proj2 (prependDashes_line_by_line trimAsciiSpace)).
  intros c Hc; simpl in Hc.
  repeat (destruct Hc as [<- | Hc]; [discriminate |]).
  destruct Hc.
Defined.

(** ** The [String] method of a parameter *)

Lemma paramString_spec (trimSpace : string -> string) (n : nat) :
  forall p,
    depth p <= n ->
    (printable p ->
     exists s, paramString trimSpace p = Done s /\
               (s = "" <-> isValidParameter p = false)) /\
    (~ printable p ->
     paramString trimSpace p = Panic "nil pointer dereference").
Proof.
  induction n as [|n IH]; intros p Hdepth.
  - destruct p as [nm opt nsp harg arg hfl fl hpar [q|]];
      [simpl in Hdepth; lia |].
    unfold isValidParameter; simpl.
    destruct hpar; simpl; split; try tauto; intros _.
    destruct opt, nsp, hfl, harg; simpl; eexists; split; try reflexivity;
      split; try discriminate; reflexivity.
  - destruct p as [nm opt nsp harg arg hfl fl hpar [q|]].
    + simpl in Hdepth.
      destruct (IH q ltac:(lia)) as (Hyes & Hno).
      unfold isValidParameter; cbn [printable paramString optional nospace
        hasflags hasargument hasparameter].
      destruct hpar.
      * split.
        -- intros Hq; destruct (Hyes Hq) as (s & -> & _); cbn [bind].
           eexists; split; [reflexivity |].
           rewrite !Bool.orb_true_r.
           destruct opt, nsp, hfl, harg; simpl; split; discriminate.
        -- intros Hq; rewrite (Hno Hq); reflexivity.
      * split; [intros _ | tauto]. cbn [bind].
        destruct opt, nsp, hfl, harg; simpl; eexists; split; try reflexivity;
          split; try discriminate; reflexivity.
    + unfold isValidParameter; simpl.
      destruct hpar; simpl; split; try tauto; intros _.
      destruct opt, nsp, hfl, harg; simpl; eexists; split; try reflexivity;
        split; try discriminate; reflexivity.
Qed.

(** X14.  The [String] method of a parameter returns exactly on the
    printable parameters and panics on the others ([hasparameter] set
    somewhere down the chain with no nested node); when it returns, the
    text is empty exactly for the parameters that are not valid.  This
    holds whatever [TrimSpace] computes. *)
Theorem paramString_returns_iff_printable (trimSpace : string -> string)
  (p : Param) :
  (printable p ->
   exists s, paramString trimSpace p = Done s /\
             (s = "" <-> isValidParameter p = false)) /\
  (~ printable p ->
   paramString trimSpace p = Panic "nil pointer dereference").
Proof. apply (@paramString_spec trimSpace (depth p) p), Nat.le_refl. Qed.

Lemma paramString_returns_iff_printable_witness :
  (exists s,
      paramString trimAsciiSpace
        (mkParam "" true false false "" false "" true (Some zeroParam))
      = Done s /\
      (s = "" <->
       isValidParameter
         (mkParam "" true false false "" false "" true (Some zeroParam))
       = false)) /\
  paramString trimAsciiSpace (mkParam "" true false false "" false "" true None)
  = Panic "nil pointer dereference".
Proof.
  split.
  - apply (proj1 (paramString_returns_iff_printable trimAsciiSpace
                    (mkParam "" true false false "" false "" true
                             (Some zeroParam)))).
    exact I.
  - apply (proj2 (paramString_returns_iff_printable trimAsciiSpace
                    (mkParam "" true false false "" false "" true None))).
    intros H; exact H.
Defined.

Lemma built_printable (n : nat) :
  forall tokens p e,
    length tokens <= n ->
    buildParameter tokens = Done (p, e) -> printable p.
Proof.
  induction n as [|n IH]; intros tokens p e Hlen Hp.
  - destruct tokens; [| simpl in Hlen; lia].
    injection Hp as <- _; exact I.
  - destruct (@buildParameter_invariant tokens (fun _ q => printable q))
      as (p' & Hp' & Hprintable).
    + exact I.
    + intros i raw q q' Hnth Hq Hmv.
      assert (Hi : i < length tokens)
        by (apply nth_error_Some; rewrite Hnth; discriminate).
      assert (H1 : 1 <= i -> forall tp e',
                   buildParameter (skipn i tokens) = Done (tp, e') ->
                   printable tp).
      { intros Hge tp e' Htp. eapply IH; [| exact Htp].
        rewrite length_skipn; lia. }
      destruct Hmv; try exact Hq; try (destruct q; exact Hq).
      destruct q; simpl in *. eapply H1; eassumption.
    + rewrite Hp in Hp'; injection Hp' as -> _; exact Hprintable.
Qed.

Section RenderingOfBuilt.

Variable trimSpace : string -> string.

Lemma syntaxString_loop_returns (params : list Param) :
  Forall printable params ->
  forall ret, exists rest,
    syntaxString_loop trimSpace params ret = Done (ret ++ rest)%string.
Proof.
  induction 1 as [|p params Hp _ IH]; intros ret; cbn [syntaxString_loop].
  - exists EmptyString; rewrite string_app_nil_r; reflexivity.
  - destruct (proj1 (@paramString_spec trimSpace (depth p) p (Nat.le_refl _)) Hp)
      as (s & -> & _); cbn [bind].
    destruct (IH (ret ++ s ++ newline)%string) as (rest & ->).
    exists (s ++ newline ++ rest)%string.
    rewrite !string_app_assoc; reflexivity.
Qed.

Lemma commandString_loop_returns (syns : list Syntax) :
  Forall (fun syn => Forall printable (parameters syn)) syns ->
  forall ret, exists rest,
    commandString_loop trimSpace syns ret = Done (ret ++ rest)%string.
Proof.
  induction 1 as [|syn syns Hsyn _ IH]; intros ret; cbn [commandString_loop].
  - exists EmptyString; rewrite string_app_nil_r; reflexivity.
  - unfold syntaxString.
    destruct (@syntaxString_loop_returns (parameters syn) Hsyn EmptyString) as (s & ->);
      cbn [bind append].
    destruct (IH (ret ++ prependDashes trimSpace s ++ newline)%string)
      as (rest & ->).
    exists (prependDashes trimSpace s ++ newline ++ rest)%string.
    rewrite !string_app_assoc; reflexivity.
Qed.

End RenderingOfBuilt.

Lemma buildCommand_printable (nm : string) (paramLines : list (list string))
  (cmd : Command) (err : error) :
  buildCommand nm paramLines = Done (cmd, err) ->
  Forall (fun syn => Forall printable (parameters syn)) (syntaxes cmd).
Proof.
  destruct (buildCommand_spec nm paramLines) as (syns & Hall & ->).
  intros [= <- _]; simpl.
  apply Forall_forall; intros syn Hsyn.
  apply filter_In in Hsyn; destruct Hsyn as (Hsyn & _).
  destruct (@Forall2_In_r _ _ _ _ _ _ Hall Hsyn) as (lineset & _ & Hbuilt).
  unfold assembled_from in Hbuilt.
  destruct (buildSyntax_spec lineset) as (ps & Hps & Hrun).
  rewrite Hrun in Hbuilt; injection Hbuilt as <-; simpl.
  apply Forall_forall; intros p Hp.
  apply filter_In in Hp; destruct Hp as (Hp & _).
  destruct (@Forall2_In_r _ _ _ _ _ _ Hps Hp) as (line & _ & Hline).
  eapply (@built_printable (length (splitSpace line))); [apply Nat.le_refl | exact Hline].
Qed.

(** X15.  What the builder returns can always be printed: every parameter
    [buildParameter] builds is printable, and on the command the pipeline
    returns for any document the [String] method returns a text that
    starts with ["Command: "], the name and a line feed.  This holds
    whatever [TrimSpace] computes. *)
Theorem pipeline_output_renders (trimSpace : string -> string) :
  (forall tokens,
      exists p s, buildParameter tokens = Done (p, None) /\
                  paramString trimSpace p = Done s) /\
  (forall rawlines,
      exists cmd err rest,
        manfileToCommand rawlines = Done (cmd, err) /\
        commandString trimSpace cmd =
        Done ("Command: " ++ name cmd ++ newline ++ rest)%string).
Proof.
  split.
  - intros tokens. destruct (buildParameter_total tokens) as (p & Hp).
    pose proof (@built_printable _ tokens p None (Nat.le_refl _) Hp) as Hprintable.
    destruct (proj1 (@paramString_spec trimSpace (depth p) p (Nat.le_refl _))
                    Hprintable) as (s & Hs & _).
    exists p, s; split; assumption.
  - intros rawlines.
    destruct (manfileToCommand_total rawlines) as (cmd & err & Hrun).
    assert (Hprintable :
              Forall (fun syn => Forall printable (parameters syn)) (syntaxes cmd)).
    { unfold manfileToCommand in Hrun.
      destruct (getSynopsisLines rawlines) as [groups| |]; simpl in Hrun;
        try discriminate.
      destruct (getDefinedName rawlines) as [nm| |]; simpl in Hrun;
        try discriminate.
      eapply buildCommand_printable; exact Hrun. }
    destruct (@commandString_loop_returns trimSpace (syntaxes cmd) Hprintable
                ("Command: " ++ name cmd ++ newline)%string) as (rest & Hrest).
    exists cmd, err, rest; split; [exact Hrun |].
    unfold commandString; rewrite Hrest, !string_app_assoc; reflexivity.
Qed.
